(** * Plagarism_Checker: the result-aggregation and response-normalisation
      pipeline of [services/geminiService.ts] and the summary of
      [components/ResultsDisplay.tsx], as a shallow embedding.

    JavaScript strings are sequences of UTF-16 code units; numbers coming out
    of [JSON.parse] are read as exact rationals (IEEE rounding is not part of
    the model).  The two regular expressions of [extractJsonFromText] are kept
    as regular-expression terms and run by a small backtracking matcher that
    follows the ECMAScript rules (leftmost start, alternatives in order,
    greedy and lazy repetition, capture groups). *)

From Stdlib Require Import String Ascii.
From Stdlib Require Import List Sorted NArith ZArith QArith Qreduction Lia Bool Arith PeanoNat.
Import ListNotations.

Set Implicit Arguments.
Set Warnings "-register-all".
Local Close Scope Q_scope.
Local Open Scope nat_scope.
Local Open Scope list_scope.

(* ================================================================== *)
(** ** JavaScript strings *)
(* ================================================================== *)

Module JsString.

(** A string is the list of its UTF-16 code units. *)
Definition jsstring := list N.

(** An ASCII literal of the source, as code units. *)
Definition js (s : string) : jsstring :=
  map N_of_ascii (list_ascii_of_string s).

Definition jsstring_eqb (a b : jsstring) : bool :=
  if list_eq_dec N.eq_dec a b then true else false.

(** [s.length > 0], the truthiness of a string. *)
Definition truthy_string (s : jsstring) : bool :=
  match s with [] => false | _ :: _ => true end.

(** The class [\s] of ECMAScript: WhiteSpace and LineTerminator.  It is
    also the set that [String.prototype.trim] removes. *)
Definition is_space (c : N) : bool :=
  ((9 <=? c) && (c <=? 13) || (c =? 32) || (c =? 160) || (c =? 5760)
   || ((8192 <=? c) && (c <=? 8202)) || (c =? 8232) || (c =? 8233)
   || (c =? 8239) || (c =? 8287) || (c =? 12288) || (c =? 65279))%N.

(** The class [[\s\S]]: any code unit. *)
Definition any_char (_ : N) : bool := true.

Fixpoint drop_spaces (s : jsstring) : jsstring :=
  match s with
  | c :: tl => if is_space c then drop_spaces tl else s
  | [] => []
  end.

(** [s.trim()] *)
Definition trim (s : jsstring) : jsstring :=
  rev (drop_spaces (rev (drop_spaces s))).

(** [pat] is a prefix of [s]: the rest of [s] after it. *)
Fixpoint strip_prefix (pat s : jsstring) : option jsstring :=
  match pat, s with
  | [], _ => Some s
  | p :: pat', c :: s' => if (p =? c)%N then strip_prefix pat' s' else None
  | _ :: _, [] => None
  end.

(** [s.indexOf(pat)] *)
Fixpoint indexOf (pat s : jsstring) : option nat :=
  match strip_prefix pat s with
  | Some _ => Some 0
  | None =>
      match s with
      | [] => None
      | _ :: tl => option_map S (indexOf pat tl)
      end
  end.

(** [s.includes(pat)] as a proposition. *)
Definition includes (pat s : jsstring) : Prop :=
  exists a b, s = a ++ pat ++ b.

End JsString.
Export JsString.

(* ================================================================== *)
(** ** Regular expressions, as far as the source uses them *)
(* ================================================================== *)

Module Regex.

(** The constructs occurring in the two patterns of the source: literal
    text, one character of a class, a greedy ([c*]) or lazy ([c*?])
    repetition of a class, sequence, alternative, numbered capture group. *)
Inductive regex : Type :=
| Lit (s : jsstring)
| Class (c : N -> bool)
| Star (greedy : bool) (c : N -> bool)
| Seq (r1 r2 : regex)
| Alt (r1 r2 : regex)
| Group (n : nat) (r : regex).

(** Capture groups: unset groups are [undefined] ([None]). *)
Definition captures := nat -> option jsstring.
Definition no_captures : captures := fun _ => None.
Definition set_capture (n : nat) (s : jsstring) (caps : captures) : captures :=
  fun m => if Nat.eqb m n then Some s else caps m.

(** What a (sub)match consumed: the part of [inp] in front of [rest]. *)
Definition consumed (inp rest : jsstring) : jsstring :=
  firstn (length inp - length rest) inp.

Section Matcher.
Variable A : Type.

(** [c*]: take as many characters as possible, give one back at a time
    while the continuation fails. *)
Fixpoint star_greedy (c : N -> bool) (inp : jsstring)
         (k : jsstring -> option A) : option A :=
  match inp with
  | x :: tl =>
      if c x then
        match star_greedy c tl k with
        | Some r => Some r
        | None => k inp
        end
      else k inp
  | [] => k []
  end.

(** [c*?]: take as few characters as possible, one more at a time while
    the continuation fails. *)
Fixpoint star_lazy (c : N -> bool) (inp : jsstring)
         (k : jsstring -> option A) : option A :=
  match k inp with
  | Some r => Some r
  | None =>
      match inp with
      | x :: tl => if c x then star_lazy c tl k else None
      | [] => None
      end
  end.

(** Backtracking matcher in continuation-passing style: [k] is the rest
    of the pattern. *)
Fixpoint rmatch (r : regex) (inp : jsstring) (caps : captures)
         (k : jsstring -> captures -> option A) : option A :=
  match r with
  | Lit s =>
      match strip_prefix s inp with
      | Some rest => k rest caps
      | None => None
      end
  | Class c =>
      match inp with
      | x :: tl => if c x then k tl caps else None
      | [] => None
      end
  | Star true c => star_greedy c inp (fun rest => k rest caps)
  | Star false c => star_lazy c inp (fun rest => k rest caps)
  | Seq r1 r2 => rmatch r1 inp caps (fun rest caps' => rmatch r2 rest caps' k)
  | Alt r1 r2 =>
      match rmatch r1 inp caps k with
      | Some x => Some x
      | None => rmatch r2 inp caps k
      end
  | Group n r' =>
      rmatch r' inp caps
             (fun rest caps' => k rest (set_capture n (consumed inp rest) caps'))
  end.
End Matcher.

(** A match anchored at the start of [inp]: the text behind the match and
    the captures. *)
Definition match_here (r : regex) (inp : jsstring) : option (jsstring * captures) :=
  rmatch r inp no_captures (fun rest caps => Some (rest, caps)).

(** [RegExp.prototype.exec] without flags: the match at the leftmost
    position that has one.  Only the captures are returned. *)
Fixpoint exec (r : regex) (inp : jsstring) : option captures :=
  match match_here r inp with
  | Some (_, caps) => Some caps
  | None =>
      match inp with
      | [] => None
      | _ :: tl => exec r tl
      end
  end.

(** [inp.replace(r, '$n')] for a pattern with the [g] flag: every match,
    found from left to right, is replaced by its capture [n]; [skip] counts
    the characters of the current match that are still to be passed over.
    (The pattern of the source matches at least two characters; an empty
    match is passed over like a failed one.) *)
Fixpoint replace_from (r : regex) (n : nat) (inp : jsstring) (skip : nat) : jsstring :=
  match inp with
  | [] => []
  | x :: tl =>
      match skip with
      | S skip' => replace_from r n tl skip'
      | O =>
          match match_here r inp with
          | Some (rest, caps) =>
              match length inp - length rest with
              | O => x :: replace_from r n tl 0
              | S m =>
                  match caps n with Some g => g | None => [] end
                    ++ replace_from r n tl m
              end
          | None => x :: replace_from r n tl 0
          end
      end
  end.

Definition replace_all (r : regex) (n : nat) (inp : jsstring) : jsstring :=
  replace_from r n inp 0.

End Regex.
Export Regex.

(* ================================================================== *)
(** ** JavaScript values as [JSON.parse] produces them *)
(* ================================================================== *)

Module JsValues.

Inductive JsValue : Type :=
| JUndefined
| JNull
| JBool (b : bool)
| JNum (q : Q)
| JStr (s : jsstring)
| JArr (items : list JsValue)
| JObj (fields : list (jsstring * JsValue)).

(** Own property of an object by name. *)
Fixpoint assoc_get (fields : list (jsstring * JsValue)) (key : jsstring) : option JsValue :=
  match fields with
  | [] => None
  | (k, v) :: tl => if jsstring_eqb k key then Some v else assoc_get tl key
  end.

(** [v.key] for a key that no prototype defines ([similarity],
    [matched_sentences], [sentence]): [None] is the [TypeError] of reading
    a property of [null] or [undefined]. *)
Definition get_prop (v : JsValue) (key : jsstring) : option JsValue :=
  match v with
  | JUndefined | JNull => None
  | JObj fields =>
      match assoc_get fields key with
      | Some x => Some x
      | None => Some JUndefined
      end
  | _ => Some JUndefined
  end.

(** Truthiness, as [item && ...] tests it. *)
Definition truthy (v : JsValue) : bool :=
  match v with
  | JUndefined | JNull => false
  | JBool b => b
  | JNum q => negb (Qeq_bool q 0)
  | JStr s => truthy_string s
  | JArr _ | JObj _ => true
  end.

End JsValues.
Export JsValues.

(* ================================================================== *)
(** ** extractJsonFromText *)
(* ================================================================== *)

Module Normalizer.

Definition BACKTICKS : jsstring := js "```".
Definition FENCE : jsstring := js "```json".
Definition LBRACE : N := 123.
Definition RBRACE : N := 125.
Definition RBRACKET : N := 93.
Definition COMMA : N := 44.

(** [/```json\s*([\s\S]*?)\s*```|({[\s\S]*})/] *)
Definition jsonRegex : regex :=
  Alt (Seq (Lit FENCE)
           (Seq (Star true is_space)
                (Seq (Group 1 (Star false any_char))
                     (Seq (Star true is_space) (Lit BACKTICKS)))))
      (Group 2 (Seq (Lit [LBRACE]) (Seq (Star true any_char) (Lit [RBRACE])))).

Definition is_closer (c : N) : bool := ((c =? RBRACE) || (c =? RBRACKET))%N.

(** [/,\s*([}\]])/g] *)
Definition trailingCommaRegex : regex :=
  Seq (Lit [COMMA]) (Seq (Star true is_space) (Group 1 (Class is_closer))).

(** [jsonString.replace(/,\s*([}\]])/g, '$1')] *)
Definition sanitize (jsonString : jsstring) : jsstring :=
  replace_all trailingCommaRegex 1 jsonString.

(** [match[1] || match[2]], when it is truthy. *)
Definition pick_group (caps : captures) : option jsstring :=
  match caps 1 with
  | Some (c :: g) => Some (c :: g)
  | _ =>
      match caps 2 with
      | Some (c :: g) => Some (c :: g)
      | _ => None
      end
  end.

(** The string the function decides to parse, before it is sanitised. *)
Definition jsonCandidate (text : jsstring) : option jsstring :=
  match exec jsonRegex text with
  | Some caps => pick_group caps
  | None => None
  end.

Inductive ExtractError : Type :=
| MalformedJson     (* "API returned malformed JSON." *)
| NonJsonResponse.  (* "Received a non-JSON response from the API." *)

Definition extract_error_message (e : ExtractError) : jsstring :=
  match e with
  | MalformedJson => js "API returned malformed JSON."
  | NonJsonResponse => js "Received a non-JSON response from the API."
  end.

Section WithParser.
(** [JSON.parse]: [None] is its [SyntaxError]. *)
Variable JSON_parse : jsstring -> option JsValue.

Definition parse_sanitized (jsonString : jsstring) : JsValue + ExtractError :=
  match JSON_parse (sanitize jsonString) with
  | Some v => inl v
  | None => inr MalformedJson
  end.

Definition extractJsonFromText (text : jsstring) : JsValue + ExtractError :=
  match jsonCandidate text with
  | Some jsonString => parse_sanitized jsonString
  | None => inr NonJsonResponse
  end.
End WithParser.

End Normalizer.
Export Normalizer.

(* ================================================================== *)
(** ** A reader for JSON texts *)
(* ================================================================== *)

(** [JSON.parse] is a built-in of the language.  The pipeline below takes it
    as a parameter; [json_parse] is an executable reading of the JSON grammar
    (ECMA-404) used to run the pipeline on concrete texts.  Numbers are read
    exactly; an object that repeats a key keeps the last value. *)
Module Json.

Definition is_json_space (c : N) : bool :=
  ((c =? 32) || (c =? 9) || (c =? 10) || (c =? 13))%N.

Fixpoint skip_ws (s : jsstring) : jsstring :=
  match s with
  | c :: tl => if is_json_space c then skip_ws tl else s
  | [] => []
  end.

Definition is_digit (c : N) : bool := ((48 <=? c) && (c <=? 57))%N.
Definition digit_val (c : N) : Z := Z.of_N c - 48.

Definition hex_val (c : N) : option N :=
  if is_digit c then Some (c - 48)%N
  else if ((97 <=? c) && (c <=? 102))%N then Some (c - 87)%N
  else if ((65 <=? c) && (c <=? 70))%N then Some (c - 55)%N
  else None.

(** The characters of a string literal behind its opening quote. *)
Fixpoint read_string (s acc : jsstring) : option (jsstring * jsstring) :=
  match s with
  | [] => None
  | 34%N :: rest => Some (rev acc, rest)
  | 92%N :: e :: rest =>
      match e with
      | 34%N => read_string rest (34%N :: acc)
      | 92%N => read_string rest (92%N :: acc)
      | 47%N => read_string rest (47%N :: acc)
      | 98%N => read_string rest (8%N :: acc)
      | 102%N => read_string rest (12%N :: acc)
      | 110%N => read_string rest (10%N :: acc)
      | 114%N => read_string rest (13%N :: acc)
      | 116%N => read_string rest (9%N :: acc)
      | 117%N =>
          match rest with
          | a :: b :: c :: d :: rest' =>
              match hex_val a, hex_val b, hex_val c, hex_val d with
              | Some a', Some b', Some c', Some d' =>
                  read_string rest' ((a' * 4096 + b' * 256 + c' * 16 + d')%N :: acc)
              | _, _, _, _ => None
              end
          | _ => None
          end
      | _ => None
      end
  | c :: rest => if (c <? 32)%N then None else read_string rest (c :: acc)
  end.

(** A run of digits: its value, how many there were, and the rest. *)
Fixpoint read_digits (s : jsstring) (acc : Z) (count : nat) : Z * nat * jsstring :=
  match s with
  | c :: tl => if is_digit c then read_digits tl (acc * 10 + digit_val c)%Z (S count)
               else (acc, count, s)
  | [] => (acc, count, [])
  end.

Definition read_int (s : jsstring) : option (Z * jsstring) :=
  match s with
  | 48%N :: tl => Some (0%Z, tl)
  | c :: _ =>
      if is_digit c then
        let '(v, _, rest) := read_digits s 0%Z 0 in Some (v, rest)
      else None
  | [] => None
  end.

Definition read_frac (s : jsstring) : option (Q * jsstring) :=
  match s with
  | 46%N :: tl =>
      match read_digits tl 0%Z 0 with
      | (_, O, _) => None
      | (v, n, rest) => Some (Qmake v (Pos.pow 10 (Pos.of_nat n)), rest)
      end
  | _ => Some (0%Q, s)
  end.

Definition read_exp (s : jsstring) : option (Z * jsstring) :=
  match s with
  | c :: tl =>
      if ((c =? 101) || (c =? 69))%N then
        let '(sign, tl') :=
          match tl with
          | 43%N :: r => (1%Z, r)
          | 45%N :: r => ((-1)%Z, r)
          | _ => (1%Z, tl)
          end in
        match read_digits tl' 0%Z 0 with
        | (_, O, _) => None
        | (v, _, rest) => Some ((sign * v)%Z, rest)
        end
      else Some (0%Z, s)
  | [] => Some (0%Z, s)
  end.

Definition read_number (s : jsstring) : option (Q * jsstring) :=
  let '(neg, s1) := match s with 45%N :: tl => (true, tl) | _ => (false, s) end in
  match read_int s1 with
  | None => None
  | Some (i, s2) =>
      match read_frac s2 with
      | None => None
      | Some (f, s3) =>
          match read_exp s3 with
          | None => None
          | Some (e, s4) =>
              let m := Qmult (Qplus (inject_Z i) f) (Qpower (inject_Z 10) e) in
              Some (Qred (if neg then Qopp m else m), s4)
          end
      end
  end.

(** Defining a property: a repeated key keeps its place and takes the new
    value. *)
Fixpoint set_field (fields : list (jsstring * JsValue)) (k : jsstring) (v : JsValue) :=
  match fields with
  | [] => [(k, v)]
  | (k', v') :: tl =>
      if jsstring_eqb k' k then (k', v) :: tl else (k', v') :: set_field tl k v
  end.

Fixpoint read_value (fuel : nat) (s : jsstring) : option (JsValue * jsstring) :=
  match fuel with
  | O => None
  | S fuel' =>
      match skip_ws s with
      | 123%N :: tl =>
          match skip_ws tl with
          | 125%N :: rest => Some (JObj [], rest)
          | _ => read_members fuel' tl []
          end
      | 91%N :: tl =>
          match skip_ws tl with
          | 93%N :: rest => Some (JArr [], rest)
          | _ => read_elements fuel' tl []
          end
      | 34%N :: tl =>
          match read_string tl [] with
          | Some (str, rest) => Some (JStr str, rest)
          | None => None
          end
      | c :: tl =>
          match strip_prefix (js "true") (c :: tl),
                strip_prefix (js "false") (c :: tl),
                strip_prefix (js "null") (c :: tl) with
          | Some rest, _, _ => Some (JBool true, rest)
          | _, Some rest, _ => Some (JBool false, rest)
          | _, _, Some rest => Some (JNull, rest)
          | None, None, None =>
              match read_number (c :: tl) with
              | Some (q, rest) => Some (JNum q, rest)
              | None => None
              end
          end
      | [] => None
      end
  end
with read_elements (fuel : nat) (s : jsstring) (acc : list JsValue)
     : option (JsValue * jsstring) :=
  match fuel with
  | O => None
  | S fuel' =>
      match read_value fuel' s with
      | None => None
      | Some (v, rest) =>
          match skip_ws rest with
          | 44%N :: rest' => read_elements fuel' rest' (v :: acc)
          | 93%N :: rest' => Some (JArr (rev (v :: acc)), rest')
          | _ => None
          end
      end
  end
with read_members (fuel : nat) (s : jsstring) (acc : list (jsstring * JsValue))
     : option (JsValue * jsstring) :=
  match fuel with
  | O => None
  | S fuel' =>
      match skip_ws s with
      | 34%N :: tl =>
          match read_string tl [] with
          | None => None
          | Some (key, rest) =>
              match skip_ws rest with
              | 58%N :: rest1 =>
                  match read_value fuel' rest1 with
                  | None => None
                  | Some (v, rest2) =>
                      match skip_ws rest2 with
                      | 44%N :: rest3 => read_members fuel' rest3 (set_field acc key v)
                      | 125%N :: rest3 => Some (JObj (set_field acc key v), rest3)
                      | _ => None
                      end
                  end
              | _ => None
              end
          end
      | _ => None
      end
  end.

(** The whole text must be one value, surrounded by JSON white space only.
    Every step of the reader consumes a character, so the length of the
    text bounds the recursion. *)
Definition json_parse (s : jsstring) : option JsValue :=
  match read_value (S (length s)) s with
  | Some (v, rest) => match skip_ws rest with [] => Some v | _ => None end
  | None => None
  end.

End Json.
Export Json.

(* ================================================================== *)
(** ** types.ts and the provider boundary *)
(* ================================================================== *)

Record DocumentContent : Type := {
  name : jsstring;
  content : jsstring;
  mimeType : jsstring
}.

(** [ComparisonResult].  [analyzePair] copies two properties of the parsed
    reply without looking at them, so at run time they are arbitrary values. *)
Module ComparisonResult.
Record t : Type := {
  file1 : jsstring;
  file2 : jsstring;
  similarity : JsValue;
  matched_sentences : JsValue
}.
End ComparisonResult.

Record Source : Type := { uri : jsstring; title : jsstring }.

Record OnlineMatchedSentence : Type := { sentence : jsstring }.

(** [OnlineComparisonResult].  [analyzeContentOnline] only builds one after
    [typeof parsed.similarity === 'number'] held. *)
Module OnlineComparisonResult.
Record t : Type := {
  file1 : jsstring;
  similarity : Q;
  matched_sentences : list OnlineMatchedSentence;
  sources : list Source
}.
End OnlineComparisonResult.

(** [ComparisonResult | OnlineComparisonResult] *)
Inductive AnalysisResult : Type :=
| Pairwise (r : ComparisonResult.t)
| Online (r : OnlineComparisonResult.t).

(** What the pipeline reads of a [GenerateContentResponse]: the [text]
    accessor and the path [candidates?.[0]?.groundingMetadata?.groundingChunks],
    every step of which may be absent. *)
Module Provider.
Module Web.
Record t : Type := { uri : option jsstring; title : option jsstring }.
End Web.
Record GroundingChunk : Type := { web : option Web.t }.
Record GroundingMetadata : Type := { groundingChunks : option (list GroundingChunk) }.
Record Candidate : Type := { groundingMetadata : option GroundingMetadata }.
Record GenerateContentResponse : Type := {
  text : option jsstring;
  candidates : option (list Candidate)
}.

(** The three call sites of [ai.models.generateContent], with the data each
    one sends (the fixed prompt texts are left out). *)
Inductive Request : Type :=
| ExtractTextRequest (doc : DocumentContent)
| PairRequest (doc1 doc2 : DocumentContent)
| OnlineRequest (textContent : jsstring).

(** A call resolves with a response or rejects; [message] is what
    [error instanceof Error ? error.message : String(error)] gives. *)
Inductive Reply : Type :=
| Responds (response : GenerateContentResponse)
| Rejects (message : jsstring).
End Provider.
Import Provider.

(* ================================================================== *)
(** ** Asynchronous functions and Promise.all *)
(* ================================================================== *)

Module Async.

(** How an asynchronous function ends: [return] or [throw new Error(m)]. *)
Inductive Outcome (A : Type) : Type :=
| Resolved (a : A)
| Thrown (message : jsstring).
Arguments Resolved {A} a.
Arguments Thrown {A} message.

(** A run of an asynchronous function: the provider requests it issued and
    how it ended. *)
Definition Async (A : Type) : Type := (list Request * Outcome A)%type.

Definition call_log {A} (m : Async A) : list Request := fst m.
Definition outcome {A} (m : Async A) : Outcome A := snd m.

(** [const a = await m; ... f a] *)
Definition bind {A B} (m : Async A) (f : A -> Async B) : Async B :=
  match m with
  | (log, Resolved a) => let '(log', r) := f a in (log ++ log', r)
  | (log, Thrown e) => (log, Thrown e)
  end.

(** The promise returned by [Promise.all]. *)
Inductive PromiseState (A : Type) : Type :=
| Pending (slots : list (option A))
| Fulfilled (values : list A)
| Rejected (message : jsstring).
Arguments Pending {A} slots.
Arguments Fulfilled {A} values.
Arguments Rejected {A} message.

(** All slots filled: the values in index order. *)
Fixpoint all_values {A} (slots : list (option A)) : option (list A) :=
  match slots with
  | [] => Some []
  | Some v :: tl => option_map (cons v) (all_values tl)
  | None :: _ => None
  end.

Fixpoint set_slot {A} (slots : list (option A)) (i : nat) (v : A) : list (option A) :=
  match slots, i with
  | [], _ => []
  | _ :: tl, O => Some v :: tl
  | s :: tl, S i' => s :: set_slot tl i' v
  end.

(** The reaction of [Promise.all] when input promise [i] settles: a value
    goes to slot [i], and the result fulfils once every slot is filled; a
    rejection rejects the result, unless it is settled already. *)
Definition settle {A} (outcomes : list (Outcome A)) (st : PromiseState A) (i : nat)
  : PromiseState A :=
  match st with
  | Pending slots =>
      match nth_error outcomes i with
      | Some (Resolved v) =>
          let slots' := set_slot slots i v in
          match all_values slots' with
          | Some values => Fulfilled values
          | None => Pending slots'
          end
      | Some (Thrown e) => Rejected e
      | None => st
      end
  | _ => st
  end.

(** [Promise.all(promises)] where promise [i] ends as [outcomes[i]] and the
    promises settle in the order [schedule] (a list of indices). *)
Definition Promise_all {A} (outcomes : list (Outcome A)) (schedule : list nat)
  : PromiseState A :=
  match outcomes with
  | [] => Fulfilled []
  | _ :: _ => fold_left (settle outcomes) schedule (Pending (map (fun _ => None) outcomes))
  end.

End Async.
Import Async.

(* ================================================================== *)
(** ** services/geminiService.ts *)
(* ================================================================== *)

Module GeminiService.

(** Insertion-ordered [Map]: [set] on a present key replaces the value in
    place, on a new key appends. *)
Fixpoint Map_set {V} (m : list (jsstring * V)) (k : jsstring) (v : V) : list (jsstring * V) :=
  match m with
  | [] => [(k, v)]
  | (k', v') :: tl =>
      if jsstring_eqb k' k then (k', v) :: tl else (k', v') :: Map_set tl k v
  end.

(** [new Map(entries)] *)
Definition Map_of {V} (entries : list (jsstring * V)) : list (jsstring * V) :=
  fold_left (fun m e => Map_set m (fst e) (snd e)) entries [].

(** [Array.from(m.values())] *)
Definition Map_values {V} (m : list (jsstring * V)) : list V := map snd m.

(** The callback of [rawSentences.map] in [analyzeContentOnline]. *)
Definition normalizeSentence (item : JsValue) : OnlineMatchedSentence :=
  match item with
  | JStr s => {| sentence := s |}
  | _ =>
      if truthy item then
        match get_prop item (js "sentence") with
        | Some (JStr s) => {| sentence := s |}
        | _ => {| sentence := js "[Error: Could not parse sentence]" |}
        end
      else {| sentence := js "[Error: Could not parse sentence]" |}
  end.

(** [response.candidates?.[0]?.groundingMetadata?.groundingChunks ?? []] *)
Definition groundingChunksOf (response : GenerateContentResponse) : list GroundingChunk :=
  match candidates response with
  | Some (c :: _) =>
      match groundingMetadata c with
      | Some gm => match groundingChunks gm with Some l => l | None => [] end
      | None => []
      end
  | _ => []
  end.

(** [x || dflt] for an optional string. *)
Definition or_default (x : option jsstring) (dflt : jsstring) : jsstring :=
  match x with
  | Some s => if truthy_string s then s else dflt
  | None => dflt
  end.

(** The callback of [groundingChunks.map]. *)
Definition chunkSource (chunk : GroundingChunk) : Source :=
  {| uri := or_default (match web chunk with Some w => Web.uri w | None => None end) [];
     title := or_default (match web chunk with Some w => Web.title w | None => None end)
                         (js "Untitled") |}.

(** [groundingChunks.map(...).filter(source => source.uri)] *)
Definition sourcesOf (chunks : list GroundingChunk) : list Source :=
  filter (fun source => truthy_string (uri source)) (map chunkSource chunks).

(** [Array.from(new Map(sources.map(item => [item.uri, item])).values())] *)
Definition uniqueSourcesOf (sources : list Source) : list Source :=
  Map_values (Map_of (map (fun item => (uri item, item)) sources)).

Definition extractInnerMessage (doc : DocumentContent) : jsstring :=
  js "The API failed to extract any text from the file: " ++ name doc
     ++ js ". The file might be empty, password-protected, or in an unsupported format.".

Definition extractErrorMessage (doc : DocumentContent) (errorMessage : jsstring) : jsstring :=
  js "Failed to extract text from file: " ++ name doc ++ js ". API Error: " ++ errorMessage.

Definition pairErrorMessage (doc1 doc2 : DocumentContent) : jsstring :=
  js "Failed to analyze documents: " ++ name doc1 ++ js " and " ++ name doc2
     ++ js ". The API returned an error.".

Definition onlineErrorMessage (docName : jsstring) : jsstring :=
  js "Failed to analyze document " ++ docName
     ++ js " against online sources. The API returned an error.".

Section WithEnvironment.
(** [JSON.parse]: [None] is its [SyntaxError]. *)
Variable JSON_parse : jsstring -> option JsValue.
(** [ai.models.generateContent] as one caller sees it. *)
Variable generateContent : Request -> Reply.

Definition extractTextFromDoc (doc : DocumentContent) : Async jsstring :=
  ([ExtractTextRequest doc],
   match generateContent (ExtractTextRequest doc) with
   | Responds response =>
       match text response with
       | Some text =>
           if negb (truthy_string text) || (length (trim text) =? 0)
           then Thrown (extractErrorMessage doc (extractInnerMessage doc))
           else Resolved text
       | None => Thrown (extractErrorMessage doc (extractInnerMessage doc))
       end
   | Rejects errorMessage => Thrown (extractErrorMessage doc errorMessage)
   end).

Definition analyzePair (doc1 doc2 : DocumentContent) : Async ComparisonResult.t :=
  ([PairRequest doc1 doc2],
   match generateContent (PairRequest doc1 doc2) with
   | Responds response =>
       match text response with
       | Some text =>
           match JSON_parse (trim text) with
           | Some parsed =>
               match get_prop parsed (js "similarity"),
                     get_prop parsed (js "matched_sentences") with
               | Some similarity, Some matched_sentences =>
                   Resolved {| ComparisonResult.file1 := name doc1;
                               ComparisonResult.file2 := name doc2;
                               ComparisonResult.similarity := similarity;
                               ComparisonResult.matched_sentences := matched_sentences |}
               | _, _ => Thrown (pairErrorMessage doc1 doc2)
               end
           | None => Thrown (pairErrorMessage doc1 doc2)
           end
       | None => Thrown (pairErrorMessage doc1 doc2)
       end
   | Rejects _ => Thrown (pairErrorMessage doc1 doc2)
   end).

(** The body of the [try] block of [analyzeContentOnline] behind the
    provider call; [None] is any exception thrown in it. *)
Definition onlineResultOf (docName : jsstring) (response : GenerateContentResponse)
  : option OnlineComparisonResult.t :=
  match text response with
  | None => None
  | Some text =>
      match extractJsonFromText JSON_parse text with
      | inr _ => None
      | inl parsed =>
          match get_prop parsed (js "matched_sentences"),
                get_prop parsed (js "similarity") with
          | Some (JArr rawSentences), Some (JNum similarity) =>
              Some {| OnlineComparisonResult.file1 := docName;
                      OnlineComparisonResult.similarity := similarity;
                      OnlineComparisonResult.matched_sentences :=
                        map normalizeSentence rawSentences;
                      OnlineComparisonResult.sources :=
                        uniqueSourcesOf (sourcesOf (groundingChunksOf response)) |}
          | _, _ => None
          end
      end
  end.

Definition analyzeContentOnline (docName textContent : jsstring)
  : Async OnlineComparisonResult.t :=
  ([OnlineRequest textContent],
   match generateContent (OnlineRequest textContent) with
   | Responds response =>
       match onlineResultOf docName response with
       | Some result => Resolved result
       | None => Thrown (onlineErrorMessage docName)
       end
   | Rejects _ => Thrown (onlineErrorMessage docName)
   end).

(** [checkPastedTextPlagiarism] *)
Definition checkPastedTextPlagiarism (text : jsstring) : Async OnlineComparisonResult.t :=
  analyzeContentOnline (js "Pasted Text") text.

End WithEnvironment.

(** [for (let k = start; k < stop; k++) acc = body(acc, k)] *)
Definition for_range {A} (start stop : nat) (body : A -> nat -> A) (init : A) : A :=
  fold_left body (seq start (stop - start)) init.

(** The two nested loops of [checkPlagiarism], pushing [item i j]. *)
Definition pair_loop {A} (n : nat) (item : nat -> nat -> A) : list A :=
  for_range 0 n
    (fun pairs i => for_range (i + 1) n (fun pairs j => pairs ++ [item i j]) pairs)
    [].

(** The index pairs the loops visit, in the order of the pushes. *)
Definition pairIndices (n : nat) : list (nat * nat) := pair_loop n pair.

(** The array [pairs]; [d0] only stands for an out-of-range element, which
    the loops never read. *)
Definition generatePairs (documents : list DocumentContent)
  : list (DocumentContent * DocumentContent) :=
  match documents with
  | [] => []
  | d0 :: _ =>
      pair_loop (length documents) (fun i j => (nth i documents d0, nth j documents d0))
  end.

(** A run of [checkPlagiarism]: every provider request issued by its work
    items (grouped by work item) and the promise it returns. *)
Record Run : Type := {
  requests : list Request;
  result : PromiseState AnalysisResult
}.

Definition map_outcome {A B} (f : A -> B) (o : Outcome A) : Outcome B :=
  match o with
  | Resolved a => Resolved (f a)
  | Thrown e => Thrown e
  end.

Section CheckPlagiarism.
Variable JSON_parse : jsstring -> option JsValue.
(** The provider as work item [k] sees it. *)
Variable provider : nat -> Request -> Reply.
(** The order in which the work items settle. *)
Variable schedule : list nat.

(** [items.map(work)], work item [k] talking to [provider k]. *)
Definition start_all {I A} (work : (Request -> Reply) -> I -> Async A) (items : list I)
  : list (Async A) :=
  map (fun ki => work (provider (fst ki)) (snd ki)) (combine (seq 0 (length items)) items).

Definition onlineWork (generateContent : Request -> Reply) (doc : DocumentContent)
  : Async AnalysisResult :=
  bind (extractTextFromDoc generateContent doc)
       (fun textContent =>
          let '(log, o) := analyzeContentOnline JSON_parse generateContent (name doc) textContent in
          (log, map_outcome Online o)).

Definition pairWork (generateContent : Request -> Reply)
           (p : DocumentContent * DocumentContent) : Async AnalysisResult :=
  let '(log, o) := analyzePair JSON_parse generateContent (fst p) (snd p) in
  (log, map_outcome Pairwise o).

(** The array [analysisPromises] of either mode. *)
Definition analysisPromises (documents : list DocumentContent) (isOnlineCheck : bool)
  : list (Async AnalysisResult) :=
  if isOnlineCheck then start_all onlineWork documents
  else start_all pairWork (generatePairs documents).

(** [return Promise.all(analysisPromises)] *)
Definition await_all (tasks : list (Async AnalysisResult)) : Run :=
  {| requests := concat (map call_log tasks);
     result := Promise_all (map outcome tasks) schedule |}.

Definition checkPlagiarism (documents : list DocumentContent) (isOnlineCheck : bool) : Run :=
  if isOnlineCheck then
    if length documents <? 1 then {| requests := []; result := Fulfilled [] |}
    else await_all (analysisPromises documents true)
  else
    if length documents <? 2 then {| requests := []; result := Fulfilled [] |}
    else await_all (analysisPromises documents false).
End CheckPlagiarism.

End GeminiService.
Import GeminiService.

(* ================================================================== *)
(** ** components/ResultsDisplay.tsx: the summary *)
(* ================================================================== *)

Module ResultsDisplay.
Section Summary.
(** The component is typed over results whose [similarity] is a number. *)
Variable Result : Type.
Variable similarity : Result -> Q.

(** [results.reduce((acc, curr) => acc + curr.similarity, 0)] *)
Definition totalSimilarity (results : list Result) : Q :=
  fold_left (fun acc curr => Qplus acc (similarity curr)) results 0%Q.

(** [results.length > 0 ? (totalSimilarity / results.length) : 0] *)
Definition averageSimilarity (results : list Result) : Q :=
  if 0 <? length results
  then Qdiv (totalSimilarity results) (inject_Z (Z.of_nat (length results)))
  else 0%Q.
End Summary.
End ResultsDisplay.
Import ResultsDisplay.

(* ================================================================== *)
(** ** Vocabulary of the specification *)
(* ================================================================== *)

Module Spec.

(** The sentinel of the sentence coercion. *)
Definition sentinel : OnlineMatchedSentence :=
  {| sentence := js "[Error: Could not parse sentence]" |}.

(** Shape coercion of one raw matched sentence, in the words of the
    specification: a bare string, an object carrying a string [sentence]
    field, and every other shape. *)
Inductive coerces : JsValue -> OnlineMatchedSentence -> Prop :=
| coerces_string (s : jsstring) :
    coerces (JStr s) {| sentence := s |}
| coerces_object (fields : list (jsstring * JsValue)) (s : jsstring) :
    assoc_get fields (js "sentence") = Some (JStr s) ->
    coerces (JObj fields) {| sentence := s |}
| coerces_other (item : JsValue) :
    (forall s, item <> JStr s) ->
    (forall fields s, item = JObj fields -> assoc_get fields (js "sentence") <> Some (JStr s)) ->
    coerces item sentinel.


(** Lexicographic order on index pairs. *)
Definition lex_lt (a b : nat * nat) : Prop :=
  fst a < fst b \/ (fst a = fst b /\ snd a < snd b).

(** The text holds a fenced block: an opening [```json] with closing
    backticks somewhere behind it. *)
Definition has_fenced_block (text : jsstring) : Prop :=
  exists a b c, text = a ++ FENCE ++ b ++ BACKTICKS ++ c.

(** The text holds an opening brace with a closing brace behind it. *)
Definition has_brace_pair (text : jsstring) : Prop :=
  exists a b c, text = a ++ [LBRACE] ++ b ++ [RBRACE] ++ c.

(** The keys of a list, each at the place of its first occurrence. *)
Fixpoint first_occurrences (keys : list jsstring) : list jsstring :=
  match keys with
  | [] => []
  | k :: tl => k :: filter (fun k' => negb (jsstring_eqb k' k)) (first_occurrences tl)
  end.

(** Deduplication by URI in which the first occurrence wins, as the
    specification words it: a source stays, the later sources with its URI
    are dropped. *)
Fixpoint dedup_first_wins (sources : list Source) : list Source :=
  match sources with
  | [] => []
  | s :: tl =>
      s :: filter (fun s' => negb (jsstring_eqb (uri s') (uri s))) (dedup_first_wins tl)
  end.

(** [s] is the last source of [sources] with its URI. *)
Definition last_with_uri (sources : list Source) (s : Source) : Prop :=
  exists before after,
    sources = before ++ s :: after /\ forall s', In s' after -> uri s' <> uri s.

(** An error message identifies work item [k]: it contains the name of the
    document (online mode) or of both documents of the pair (pairwise
    mode) that the item was generated from. *)
Definition identifies_item (documents : list DocumentContent) (isOnlineCheck : bool)
           (k : nat) (e : jsstring) : Prop :=
  if isOnlineCheck then
    exists doc, nth_error documents k = Some doc /\ includes (name doc) e
  else
    exists d1 d2, nth_error (generatePairs documents) k = Some (d1, d2)
                  /\ includes (name d1) e /\ includes (name d2) e.


End Spec.
Import Spec.

(* ================================================================== *)
(** ** Concrete inputs *)
(* ================================================================== *)

Module Samples.

(** A literal in which every apostrophe stands for a double quote. *)
Definition jq (s : string) : jsstring :=
  map (fun c => if (c =? 39)%N then 34%N else c) (js s).

Definition document (n : string) : DocumentContent :=
  {| name := js n; content := js "Zm9v"; mimeType := js "text/plain" |}.

Definition reply_text (t : jsstring) : Reply :=
  Responds {| text := Some t; candidates := None |}.

Definition citation (u t : string) : GroundingChunk :=
  {| web := Some {| Web.uri := Some (js u); Web.title := Some (js t) |} |}.

Definition grounded (t : jsstring) (chunks : list GroundingChunk) : GenerateContentResponse :=
  {| text := Some t;
     candidates := Some [ {| groundingMetadata :=
                               Some {| groundingChunks := Some chunks |} |} ] |}.

(** The citations of the deduplication example of the specification. *)
Definition example_citations : list GroundingChunk :=
  [citation "a" "A1"; citation "a" "A2"; citation "" "X"; citation "b" "B"].

(** An online reply that scores 150 and cites [example_citations]. *)
Definition grounded_response : GenerateContentResponse :=
  grounded (jq "{'similarity': 150, 'matched_sentences': []}") example_citations.

(** A provider that rejects the comparison of any pair whose second
    document is [c.txt] and scores every other pair 150. *)
Definition flaky_provider (k : nat) (req : Request) : Reply :=
  match req with
  | PairRequest d1 d2 =>
      if jsstring_eqb (name d2) (js "c.txt") then Rejects (js "quota exceeded")
      else reply_text (jq " {'similarity': 150, 'matched_sentences': ['x']} ")
  | _ => Rejects (js "unavailable")
  end.

(** A provider that answers every request. *)
Definition steady_provider (k : nat) (req : Request) : Reply :=
  match req with
  | PairRequest d1 d2 =>
      reply_text (jq "{'similarity': 30, 'matched_sentences': []}")
  | ExtractTextRequest d => reply_text (js "some text")
  | OnlineRequest t => Responds grounded_response
  end.


Definition three_documents : list DocumentContent :=
  [document "a.txt"; document "b.txt"; document "c.txt"].

(** The sentence-coercion example of the specification. *)
Definition coercion_sample : jsstring :=
  jq "{'similarity': 12, 'matched_sentences': ['plain', {'sentence': 'wrapped'}, {'other': 1}]}".

(** The contents of a fenced block, with trailing commas. *)
Definition fenced_sample_inner : jsstring :=
  jq "
{'similarity': 42, 'matched_sentences': ['a',], }
".

End Samples.
Import Samples.

(* ================================================================== *)
(** ** Definitions used in the proofs *)
(* ================================================================== *)

Module Aux.

(** Row [i] of the loops: the items [(i, i+1) ... (i, n-1)]. *)
Definition row {A : Type} (n : nat) (item : nat -> nat -> A) (i : nat) : list A :=
  map (item i) (seq (i + 1) (n - (i + 1))).

(** The rows [a, a+1, ..., a+k-1] when [a + k = n]. *)
Definition rows_from (n a k : nat) : list (nat * nat) :=
  flat_map (row n pair) (seq a k).

(** A slot holds nothing but the value its promise resolved with. *)
Definition slots_agree {A : Type} (outcomes : list (Outcome A)) (slots : list (option A))
  : Prop :=
  Forall2 (fun o s => forall v, s = Some v -> o = Resolved v) outcomes slots.

(** What holds of the result once the promises in [settled] have settled. *)
Definition all_inv {A : Type} (outcomes : list (Outcome A)) (settled : list nat)
           (st : PromiseState A) : Prop :=
  match st with
  | Pending slots =>
      slots_agree outcomes slots
      /\ all_values slots = None
      /\ forall i, In i settled -> i < length outcomes ->
                   exists v, nth_error slots i = Some (Some v)
  | Fulfilled values => outcomes = map Resolved values
  | Rejected e => exists k, In k settled /\ nth_error outcomes k = Some (Thrown e)
  end.

(** [m.get(k)] *)
Fixpoint Map_get {V : Type} (m : list (jsstring * V)) (k : jsstring) : option V :=
  match m with
  | [] => None
  | (k', v) :: tl => if jsstring_eqb k' k then Some v else Map_get tl k
  end.

(** The keys of a [Map], in insertion order. *)
Definition keys {V : Type} (m : list (jsstring * V)) : list jsstring := map fst m.

(** The entries handed to [new Map]. *)
Definition source_entries (sources : list Source) : list (jsstring * Source) :=
  map (fun item => (uri item, item)) sources.


(** The rest of the first alternative behind [```json]. *)
Definition fence_tail (rest0 : jsstring) : option (jsstring * captures) :=
  star_greedy is_space rest0 (fun rest1 =>
    star_lazy any_char rest1 (fun rest2 =>
      star_greedy is_space rest2 (fun rest3 =>
        match strip_prefix BACKTICKS rest3 with
        | Some rest => Some (rest, set_capture 1 (consumed rest1 rest2) no_captures)
        | None => None
        end))).

(** The second alternative. *)
Definition brace_match (inp : jsstring) : option (jsstring * captures) :=
  match strip_prefix [LBRACE] inp with
  | Some rest0 =>
      star_greedy any_char rest0 (fun rest1 =>
        match strip_prefix [RBRACE] rest1 with
        | Some rest => Some (rest, set_capture 2 (consumed inp rest) no_captures)
        | None => None
        end)
  | None => None
  end.

(** The test the lazy group makes at each position: closing backticks
    behind optional white space. *)
Definition close_at (rest1 rest2 : jsstring) : option (jsstring * captures) :=
  match strip_prefix BACKTICKS (drop_spaces rest2) with
  | Some rest => Some (rest, set_capture 1 (consumed rest1 rest2) no_captures)
  | None => None
  end.

Definition lazy_close (rest1 : jsstring) : option (jsstring * captures) :=
  star_lazy any_char rest1 (close_at rest1).

(** Closing backticks occur somewhere in [s]. *)
Fixpoint has_close (s : jsstring) : bool :=
  match strip_prefix BACKTICKS (drop_spaces s) with
  | Some _ => true
  | None => match s with [] => false | _ :: tl => has_close tl end
  end.

(** What the repair pattern tests behind a comma. *)
Definition closer_at (rest1 : jsstring) : option (jsstring * captures) :=
  match rest1 with
  | x :: tl =>
      if is_closer x
      then Some (tl, set_capture 1 (consumed rest1 tl) no_captures)
      else None
  | [] => None
  end.

End Aux.
Import Aux.

(* ================================================================== *)
(** ** components/ResultsDisplay.tsx: colours, sentences, CSV report *)
(* ================================================================== *)

Module Report.

(** [getSimilarityColor] of the results list. *)
Definition getSimilarityColor (similarity : Q) : jsstring :=
  if negb (Qle_bool similarity 75) then js "text-red-600 bg-red-100"
  else if negb (Qle_bool similarity 40) then js "text-yellow-600 bg-yellow-100"
  else js "text-green-600 bg-green-100".

(** [MatchedSentenceItem]: [isLong] and [displayText]. *)
Definition isLong (sentence : jsstring) : bool := 150 <? length sentence.

Definition displayText (sentence : jsstring) (isExpanded : bool) : jsstring :=
  if isLong sentence && negb isExpanded
  then firstn 150 sentence ++ js "..."
  else sentence.

Definition QUOTE : N := 34.
Definition NEWLINE : jsstring := [10%N].

(** [s.replace] of every double quote by two double quotes: the pattern is
    one character, so the replacement works character by character. *)
Definition escapeQuotes (s : jsstring) : jsstring :=
  flat_map (fun c => if (c =? QUOTE)%N then [QUOTE; QUOTE] else [c]) s.

(** [items.join(sep)] for an array of strings. *)
Fixpoint join (sep : jsstring) (items : list jsstring) : jsstring :=
  match items with
  | [] => []
  | x :: tl =>
      match tl with
      | [] => x
      | _ :: _ => x ++ sep ++ join sep tl
      end
  end.

(** A template literal that wraps [s] in double quotes. *)
Definition quoted (s : jsstring) : jsstring := [QUOTE] ++ s ++ [QUOTE].

(** The cell of the matched sentences, given the sentences as strings. *)
Definition sentencesCell (sentences : list jsstring) : jsstring :=
  quoted (join NEWLINE (map escapeQuotes sentences)).

(** The cell of the sources of an online result. *)
Definition sourcesCell (sources : list Source) : jsstring :=
  quoted (join NEWLINE (map uri sources)).




Section Csv.
(** [ToString] of a value that is neither a string nor [undefined] nor
    [null], as [Array.prototype.join] applies it. *)
Variable ToString : JsValue -> jsstring.

(** One element of an array under [join]. *)
Definition join_item (v : JsValue) : jsstring :=
  match v with
  | JUndefined | JNull => []
  | JStr s => s
  | _ => ToString v
  end.

(** The row callback of the online branch; a pairwise result has no
    [sources], so reading [res.sources.map] throws at the latest. *)
Definition onlineRow (res : AnalysisResult) : option jsstring :=
  match res with
  | Online r =>
      Some (join (js ",")
                 [ OnlineComparisonResult.file1 r;
                   join_item (JNum (OnlineComparisonResult.similarity r));
                   sentencesCell (map sentence (OnlineComparisonResult.matched_sentences r));
                   sourcesCell (OnlineComparisonResult.sources r) ])
  | Pairwise _ => None
  end.



End Csv.

End Report.

(* ================================================================== *)
(** ** components/Charts.tsx *)
(* ================================================================== *)

Module Charts.

Record Colors : Type := { ring : jsstring; text : jsstring; bg : jsstring }.

(** [getSimilarityColor] of the charts. *)
Definition getSimilarityColor (similarity : Q) : Colors :=
  if negb (Qle_bool similarity 75)
  then {| ring := js "stroke-red-500"; text := js "text-red-600"; bg := js "bg-red-500" |}
  else if negb (Qle_bool similarity 40)
  then {| ring := js "stroke-yellow-500"; text := js "text-yellow-600"; bg := js "bg-yellow-500" |}
  else {| ring := js "stroke-green-500"; text := js "text-green-600"; bg := js "bg-green-500" |}.

End Charts.

(* ================================================================== *)
(** ** components/FileUpload.tsx *)
(* ================================================================== *)

Module File.
(** What the components read of a [File]. *)
Record t : Type := { name : jsstring; type : jsstring }.
End File.

Module FileUpload.

Inductive InputMode : Type := upload | paste.

Record State : Type := {
  mode : InputMode;
  files : list File.t;
  pastedText : jsstring;
  isOnlineCheck : bool
}.

(** The callback [handleSubmit] invokes, if any. *)
Inductive Submission : Type :=
| onAnalyze (files : list File.t) (isOnlineCheck : bool)
| onAnalyzeText (text : jsstring)
| NoSubmission.

Definition handleSubmit (st : State) : Submission :=
  match mode st with
  | upload =>
      if 0 <? length (files st) then onAnalyze (files st) (isOnlineCheck st)
      else NoSubmission
  | paste =>
      if truthy_string (trim (pastedText st)) then onAnalyzeText (pastedText st)
      else NoSubmission
  end.

Definition isSubmitDisabled (st : State) : bool :=
  match mode st with
  | upload => length (files st) =? 0
  | paste => negb (truthy_string (trim (pastedText st)))
  end.

Definition handleRemoveFile (st : State) (fileName : jsstring) : State :=
  {| mode := mode st;
     files := filter (fun file => negb (jsstring_eqb (File.name file) fileName)) (files st);
     pastedText := pastedText st;
     isOnlineCheck := isOnlineCheck st |}.

End FileUpload.

(* ================================================================== *)
(** ** components/Loader.tsx *)
(* ================================================================== *)

Module Loader.

Definition messages : list jsstring :=
  [ js "Analyzing document structures...";
    js "Comparing text segments...";
    js "Calculating similarity scores...";
    js "Cross-referencing content...";
    js "Finalizing plagiarism report...";
    js "This may take a moment..." ].

(** The callback of [setInterval]: the next value of [index]. *)
Definition tick (index : nat) : nat := (index + 1) mod length messages.

(** [index] after [n] runs of the callback; it starts at 0. *)
Definition index_after (n : nat) : nat := Nat.iter n tick 0.

(** The message on the screen after [n] runs of the callback: the state
    [message] starts as [messages[0]], and each run sets it to
    [messages[index]], which is [undefined] out of range. *)
Definition message_after (n : nat) : option jsstring :=
  match n with
  | O => nth_error messages 0
  | S _ => nth_error messages (index_after n)
  end.

End Loader.

(* ================================================================== *)
(** ** App.tsx *)
(* ================================================================== *)

Module App.

(** *** toBase64 *)

(** [uriUnescaped]: letters, digits and [- _ . ! ~ * ' ( )]. *)
Definition is_uri_unreserved (c : N) : bool :=
  ((65 <=? c) && (c <=? 90) || (97 <=? c) && (c <=? 122) || (48 <=? c) && (c <=? 57)
   || (c =? 45) || (c =? 95) || (c =? 46) || (c =? 33) || (c =? 126)
   || (c =? 42) || (c =? 39) || (c =? 40) || (c =? 41))%N.

Definition is_high_surrogate (c : N) : bool := ((55296 <=? c) && (c <=? 56319))%N.
Definition is_low_surrogate (c : N) : bool := ((56320 <=? c) && (c <=? 57343))%N.

(** The code point of a surrogate pair. *)
Definition pair_code_point (hi lo : N) : N :=
  ((hi - 55296) * 1024 + (lo - 56320) + 65536)%N.

(** The UTF-8 octets of a code point. *)
Definition utf8_octets (cp : N) : list N :=
  (if cp <? 128 then [cp]
   else if cp <? 2048 then [192 + cp / 64; 128 + cp mod 64]
   else if cp <? 65536 then [224 + cp / 4096; 128 + (cp / 64) mod 64; 128 + cp mod 64]
   else [240 + cp / 262144; 128 + (cp / 4096) mod 64; 128 + (cp / 64) mod 64;
         128 + cp mod 64])%N.

(** An upper-case hexadecimal digit. *)
Definition hex_digit (d : N) : N := (if d <? 10 then 48 + d else 55 + d)%N.

(** [%XX] for one octet. *)
Definition percent_octet (b : N) : jsstring :=
  [37%N; hex_digit (b / 16); hex_digit (b mod 16)].

(** [encodeURIComponent(s)]; [None] is its [URIError], thrown at a
    surrogate code unit that is not part of a pair. *)
Fixpoint encodeURIComponent (s : jsstring) : option jsstring :=
  match s with
  | [] => Some []
  | c :: tl =>
      if is_uri_unreserved c then option_map (cons c) (encodeURIComponent tl)
      else if is_low_surrogate c then None
      else if is_high_surrogate c then
        match tl with
        | c2 :: tl2 =>
            if is_low_surrogate c2
            then option_map
                   (app (flat_map percent_octet (utf8_octets (pair_code_point c c2))))
                   (encodeURIComponent tl2)
            else None
        | [] => None
        end
      else option_map (app (flat_map percent_octet (utf8_octets c)))
                      (encodeURIComponent tl)
  end.

Definition hex2 (a b : N) : option N :=
  match hex_val a, hex_val b with
  | Some x, Some y => Some (x * 16 + y)%N
  | _, _ => None
  end.

Definition hex4 (a b c d : N) : option N :=
  match hex2 a b, hex2 c d with
  | Some x, Some y => Some (x * 256 + y)%N
  | _, _ => None
  end.

(** [unescape(s)]: [%uXXXX] and [%XX] are replaced by the code unit they
    name, every other character is copied. *)
Fixpoint unescape (s : jsstring) : jsstring :=
  match s with
  | [] => []
  | c :: tl =>
      if (c =? 37)%N then
        match tl with
        | u :: a :: ((b :: c1 :: d :: rest) as rest2) =>
            match (if (u =? 117)%N then hex4 a b c1 d else None) with
            | Some v => v :: unescape rest
            | None =>
                match hex2 u a with
                | Some v => v :: unescape rest2
                | None => c :: unescape tl
                end
            end
        | u :: a :: rest2 =>
            match hex2 u a with
            | Some v => v :: unescape rest2
            | None => c :: unescape tl
            end
        | _ => c :: unescape tl
        end
      else c :: unescape tl
  end.

(** The Base64 alphabet. *)
Definition base64_char (i : N) : N :=
  (if i <? 26 then 65 + i
   else if i <? 52 then 71 + i
   else if i <? 62 then i - 4
   else if i =? 62 then 43
   else 47)%N.

Definition PAD : N := 61.

(** Base64 of a sequence of octets, three at a time. *)
Fixpoint base64_encode (octets : list N) : jsstring :=
  match octets with
  | [] => []
  | a :: tl =>
      match tl with
      | [] => [base64_char (a / 4); base64_char ((a mod 4) * 16); PAD; PAD]
      | b :: tl' =>
          match tl' with
          | [] => [base64_char (a / 4); base64_char ((a mod 4) * 16 + b / 16);
                   base64_char ((b mod 16) * 4); PAD]
          | c :: rest =>
              [base64_char (a / 4); base64_char ((a mod 4) * 16 + b / 16);
               base64_char ((b mod 16) * 4 + c / 64); base64_char (c mod 64)]
                ++ base64_encode rest
          end
      end
  end%N.

(** [btoa(s)]; [None] is its [InvalidCharacterError], thrown when a code
    unit is above 255. *)
Definition btoa (s : jsstring) : option jsstring :=
  if forallb (fun c => (c <=? 255)%N) s then Some (base64_encode s) else None.

Inductive Base64Result : Type :=
| Encoded (s : jsstring)
| URIError
| InvalidCharacterError.

(** [toBase64 = str => btoa(unescape(encodeURIComponent(str)))] *)
Definition toBase64 (str : jsstring) : Base64Result :=
  match encodeURIComponent str with
  | None => URIError
  | Some escaped =>
      match btoa (unescape escaped) with
      | Some s => Encoded s
      | None => InvalidCharacterError
      end
  end.

(** *** handleFileRead *)

(** [s.split(',')] *)
Fixpoint split_comma (s : jsstring) : list jsstring :=
  match s with
  | [] => [[]]
  | c :: tl =>
      if (c =? COMMA)%N then [] :: split_comma tl
      else
        match split_comma tl with
        | piece :: pieces => (c :: piece) :: pieces
        | [] => [[c]]
        end
  end.

(** [s.endsWith(suffix)] *)
Definition endsWith (s suffix : jsstring) : bool :=
  match strip_prefix (rev suffix) (rev s) with
  | Some _ => true
  | None => false
  end.

(** What the [FileReader] and, for a [.docx] file, [mammoth] report back. *)
Inductive ReadEvent : Type :=
| ReaderError                                   (* [reader.onerror] *)
| DataUrlLoaded (result : option jsstring)      (* [e.target?.result] *)
| DocxExtracted (value : jsstring)              (* [extractRawText] resolves *)
| DocxFailed (message : jsstring).              (* [extractRawText] rejects *)

Section FileRead.
(** Whether [window.mammoth] is there. *)
Variable mammoth : bool.
(** The messages of the two exceptions [toBase64] can throw. *)
Variable uriErrorMessage invalidCharacterMessage : jsstring.

Definition takesDocxPath (file : File.t) : bool :=
  endsWith (File.name file) (js ".docx") && mammoth.

(** The promise created for one file, settled by the event [ev].  An event
    of the other path than the one taken leaves the promise pending
    ([None]). *)
Definition readFile (file : File.t) (ev : ReadEvent) : option (Outcome DocumentContent) :=
  match ev with
  | ReaderError => Some (Thrown (js "Error reading file: " ++ File.name file))
  | DocxExtracted value =>
      if takesDocxPath file then
        match toBase64 value with
        | Encoded content =>
            Some (Resolved {| name := File.name file;
                              content := content;
                              mimeType := js "text/plain" |})
        | URIError =>
            Some (Thrown (js "Could not parse .docx file: " ++ File.name file ++ js ". "
                             ++ uriErrorMessage))
        | InvalidCharacterError =>
            Some (Thrown (js "Could not parse .docx file: " ++ File.name file ++ js ". "
                             ++ invalidCharacterMessage))
        end
      else None
  | DocxFailed message =>
      if takesDocxPath file
      then Some (Thrown (js "Could not parse .docx file: " ++ File.name file ++ js ". "
                            ++ message))
      else None
  | DataUrlLoaded result =>
      if takesDocxPath file then None
      else
        match result with
        | Some dataUrl =>
            if truthy_string dataUrl then
              match nth_error (split_comma dataUrl) 1 with
              | Some base64Data =>
                  if truthy_string base64Data
                  then Some (Resolved {| name := File.name file;
                                         content := base64Data;
                                         mimeType := File.type file |})
                  else Some (Thrown (js "Could not process file content for: "
                                        ++ File.name file))
              | None => Some (Thrown (js "Could not process file content for: "
                                         ++ File.name file))
              end
            else Some (Thrown (js "Could not read file: " ++ File.name file))
        | None => Some (Thrown (js "Could not read file: " ++ File.name file))
        end
  end.
(** The promises [files.map(...)] creates, each settled by the event of
    its file; [None] when an event does not belong to the path its file
    takes. *)
Fixpoint readAll (files : list File.t) (events : list ReadEvent)
  : option (list (Outcome DocumentContent)) :=
  match files, events with
  | [], _ => Some []
  | file :: files', ev :: events' =>
      match readFile file ev, readAll files' events' with
      | Some o, Some os => Some (o :: os)
      | _, _ => None
      end
  | _ :: _, [] => None
  end.

(** [handleFileRead]: [Promise.all] of these promises, which settle in the
    order [schedule]. *)
Definition handleFileRead (files : list File.t) (events : list ReadEvent)
           (schedule : list nat) : option (PromiseState DocumentContent) :=
  option_map (fun promises => Promise_all promises schedule) (readAll files events).
End FileRead.

(** *** The component state and its handlers *)

Inductive AppView : Type := UPLOAD | RESULTS.

Record State : Type := {
  view : AppView;
  results : list AnalysisResult;
  isLoading : bool;
  error : option jsstring
}.

Definition initial : State :=
  {| view := UPLOAD; results := []; isLoading := false; error := None |}.

(** [setIsLoading(true); setError(null); setResults([])] *)
Definition begin_analysis (st : State) : State :=
  {| view := view st; results := []; isLoading := true; error := None |}.

(** The [try] / [catch] / [finally] of both handlers, once the awaited
    promise has settled. *)
Definition end_analysis (st : State) (settled : Outcome (list AnalysisResult)) : State :=
  match settled with
  | Resolved plagiarismResults =>
      {| view := RESULTS; results := plagiarismResults; isLoading := false; error := error st |}
  | Thrown message =>
      {| view := UPLOAD; results := results st; isLoading := false; error := Some message |}
  end.

(** [handleTextAnalysis] up to its first [await]; the flag is [false] when
    the handler returned at the guard. *)
Definition handleTextAnalysis_begin (st : State) (text : jsstring) : State * bool :=
  if negb (truthy_string (trim text))
  then ({| view := view st; results := results st; isLoading := isLoading st;
           error := Some (js "Please paste some text to analyze.") |}, false)
  else (begin_analysis st, true).

Definition handleReset (st : State) : State :=
  {| view := UPLOAD; results := []; isLoading := isLoading st; error := None |}.

(** What the user sees: the loader, the upload form or the report. *)
Inductive Screen : Type := LoaderScreen | UploadScreen | ResultsScreen.

Definition screen (st : State) : Screen :=
  if isLoading st then LoaderScreen
  else match view st with UPLOAD => UploadScreen | RESULTS => ResultsScreen end.

(** How a promise the handlers await ends, if it does. *)
Definition awaited {A} (p : PromiseState A) : option (Outcome (list A)) :=
  match p with
  | Pending _ => None
  | Fulfilled values => Some (Resolved values)
  | Rejected message => Some (Thrown message)
  end.

(** One step of the application: a submission of the upload form, the
    settling of the analysis it started, or a click on the reset button. *)
Inductive step : State -> State -> Prop :=
| step_files (st : State) :
    screen st = UploadScreen -> step st (begin_analysis st)
| step_text (st : State) (text : jsstring) :
    screen st = UploadScreen -> step st (fst (handleTextAnalysis_begin st text))
| step_settled (st : State) (settled : Outcome (list AnalysisResult)) :
    screen st = LoaderScreen -> step st (end_analysis st settled)
| step_reset (st : State) :
    screen st = ResultsScreen -> step st (handleReset st).

Inductive reachable : State -> Prop :=
| reachable_initial : reachable initial
| reachable_step (st st' : State) : reachable st -> step st st' -> reachable st'.

Section HandleAnalysis.
Variable JSON_parse : jsstring -> option JsValue.
Variable provider : nat -> Request -> Reply.
Variable schedule : list nat.

(** [handleAnalysis] from its first line to its [finally] block, given how
    [handleFileRead] ended; [None] while [checkPlagiarism] is pending. *)
Definition handleAnalysis (st : State) (read : Outcome (list DocumentContent))
           (isOnlineCheck : bool) : option State :=
  let st1 := begin_analysis st in
  match read with
  | Thrown message => Some (end_analysis st1 (Thrown message))
  | Resolved documents =>
      match awaited (result (checkPlagiarism JSON_parse provider schedule
                                             documents isOnlineCheck)) with
      | Some settled => Some (end_analysis st1 settled)
      | None => None
      end
  end.

(** [handleTextAnalysis], likewise. *)
Definition handleTextAnalysis (st : State) (text : jsstring) : State :=
  let '(st1, started) := handleTextAnalysis_begin st text in
  if started then
    match outcome (checkPastedTextPlagiarism JSON_parse (provider 0) text) with
    | Resolved plagiarismResult => end_analysis st1 (Resolved [Online plagiarismResult])
    | Thrown message => end_analysis st1 (Thrown message)
    end
  else st1.
End HandleAnalysis.

End App.

(* ================================================================== *)
(** ** Further vocabulary *)
(* ================================================================== *)

Module Vocabulary.

(** A reader of a quoted CSV field (RFC 4180): behind the opening quote, a
    doubled quote stands for a quote and a single quote ends the field. *)
Fixpoint read_quoted (s acc : jsstring) : option (jsstring * jsstring) :=
  match s with
  | [] => None
  | c :: tl =>
      if (c =? Report.QUOTE)%N then
        match tl with
        | c' :: tl' =>
            if (c' =? Report.QUOTE)%N then read_quoted tl' (Report.QUOTE :: acc)
            else Some (rev acc, tl)
        | [] => Some (rev acc, tl)
        end
      else read_quoted tl (c :: acc)
  end.

Definition read_quoted_field (s : jsstring) : option (jsstring * jsstring) :=
  match s with
  | c :: tl => if (c =? Report.QUOTE)%N then read_quoted tl [] else None
  | [] => None
  end.

(** The UTF-8 encoding of a string of UTF-16 code units; [None] at a
    surrogate that is not part of a pair. *)
Fixpoint utf8_encode (s : jsstring) : option (list N) :=
  match s with
  | [] => Some []
  | c :: tl =>
      if App.is_low_surrogate c then None
      else if App.is_high_surrogate c then
        match tl with
        | c2 :: tl2 =>
            if App.is_low_surrogate c2
            then option_map (app (App.utf8_octets (App.pair_code_point c c2)))
                            (utf8_encode tl2)
            else None
        | [] => None
        end
      else option_map (app (App.utf8_octets c)) (utf8_encode tl)
  end.

(** Every element is a UTF-16 code unit. *)
Definition code_units (s : jsstring) : Prop := Forall (fun c => (c < 65536)%N) s.

(** The text holds a comma that is followed, behind optional white space,
    by a closing brace or bracket. *)
Definition has_trailing_comma (s : jsstring) : Prop :=
  exists a ws c b,
    s = a ++ [COMMA] ++ ws ++ [c] ++ b
    /\ Forall (fun x => is_space x = true) ws /\ is_closer c = true.


End Vocabulary.
Import Vocabulary.

(* ================================================================== *)
(** ** Further concrete inputs *)
(* ================================================================== *)

Module MoreSamples.




Definition two_sentences : list OnlineMatchedSentence :=
  [ {| sentence := jq "He said 'hi', twice." |}; {| sentence := js "Second one." |} ].

End MoreSamples.
Import MoreSamples.

(* ================================================================== *)
(** ** Further definitions used in the proofs *)
(* ================================================================== *)

Module AuxMore.

(** No promise among [indices] is rejected. *)
Definition no_rejection {A : Type} (outcomes : list (Outcome A)) (indices : list nat) : Prop :=
  forall i e, In i indices -> nth_error outcomes i <> Some (Thrown e).

(** Only promises that have settled fill a slot, and the result fulfils
    only when all of them have. *)
Definition filled_inv {A : Type} (outcomes : list (Outcome A)) (settled : list nat)
           (st : PromiseState A) : Prop :=
  match st with
  | Pending slots =>
      length slots = length outcomes
      /\ forall i v, nth_error slots i = Some (Some v) -> In i settled
  | Fulfilled _ => forall i, i < length outcomes -> In i settled
  | Rejected _ => True
  end.

End AuxMore.
Import AuxMore.


(* ================================================================== *)
(** ** Sentence coercion *)
(* ================================================================== *)

Lemma normalizeSentence_coerces (item : JsValue) : coerces item (normalizeSentence item).
Proof.
  destruct item as [| |b|q|s|items|fields]; try constructor;
    try (intros; discriminate).
  - unfold normalizeSentence; simpl.
    destruct b; simpl; apply coerces_other; intros; discriminate.
  - unfold normalizeSentence; simpl.
    destruct (negb (Qeq_bool q 0)); simpl; apply coerces_other; intros; discriminate.
  - unfold normalizeSentence; simpl.
    destruct (assoc_get fields (js "sentence")) as [v|] eqn:E.
    + destruct v; try (apply coerces_other;
        [ intros; discriminate
        | intros ? ? H; injection H as <-; rewrite E; discriminate ]).
      now apply coerces_object.
    + apply coerces_other;
        [ intros; discriminate
        | intros ? ? H; injection H as <-; rewrite E; discriminate ].
Qed.

(** C7.  Each raw matched sentence is coerced on its own: a bare string [s]
    gives [{sentence: s}], an object with a string [sentence] field gives
    that field, any other shape gives the sentinel; and whatever the shapes,
    a reply with a numeric [similarity] and an array [matched_sentences]
    yields a result, with one normalised sentence per raw element. *)
Theorem sentence_coercion
        (JSON_parse : jsstring -> option JsValue) (docName : jsstring)
        (response : GenerateContentResponse) (t : jsstring) (parsed : JsValue)
        (q : Q) (rawSentences : list JsValue) :
  text response = Some t ->
  extractJsonFromText JSON_parse t = inl parsed ->
  get_prop parsed (js "similarity") = Some (JNum q) ->
  get_prop parsed (js "matched_sentences") = Some (JArr rawSentences) ->
  exists r,
    onlineResultOf JSON_parse docName response = Some r
    /\ OnlineComparisonResult.matched_sentences r = map normalizeSentence rawSentences
    /\ Forall2 coerces rawSentences (OnlineComparisonResult.matched_sentences r).
Proof.
  intros Ht Hx Hs Hm. unfold onlineResultOf. rewrite Ht, Hx, Hm, Hs.
  eexists; split; [reflexivity|]. simpl. split; [reflexivity|].
  clear. induction rawSentences; simpl; constructor; auto using normalizeSentence_coerces.
Qed.


Lemma sentence_coercion_witness :
  exists r,
    onlineResultOf json_parse (js "essay.txt")
                   {| text := Some coercion_sample; candidates := None |} = Some r
    /\ OnlineComparisonResult.matched_sentences r
       = [ {| sentence := js "plain" |}; {| sentence := js "wrapped" |}; sentinel ].
Proof.
  destruct (@sentence_coercion json_parse (js "essay.txt")
              {| text := Some coercion_sample; candidates := None |}
              coercion_sample
              (JObj [(js "similarity", JNum 12);
                     (js "matched_sentences",
                      JArr [JStr (js "plain");
                            JObj [(js "sentence", JStr (js "wrapped"))];
                            JObj [(js "other", JNum 1)]])])
              12%Q
              [JStr (js "plain");
               JObj [(js "sentence", JStr (js "wrapped"))];
               JObj [(js "other", JNum 1)]]
              eq_refl)
    as [r [H1 [H2 _]]]; try (vm_compute; reflexivity).
  exists r. split; [exact H1|]. rewrite H2. vm_compute. reflexivity.
Defined.

(* ================================================================== *)
(** ** Average similarity *)
(* ================================================================== *)

Section AverageProofs.
Variable Result : Type.
Variable similarity : Result -> Q.


End AverageProofs.


Example average_of_10_50_90 :
  (averageSimilarity (fun q : Q => q) [10#1; 50#1; 90#1] == 50)%Q.
Proof. vm_compute. reflexivity. Qed.

(* ================================================================== *)
(** ** The pair generator *)
(* ================================================================== *)

Section PairLoop.
Variable A : Type.

Lemma push_loop (f : nat -> A) (js0 : list nat) (pairs : list A) :
  fold_left (fun pairs j => pairs ++ [f j]) js0 pairs = pairs ++ map f js0.
Proof.
  revert pairs. induction js0 as [|j js0 IH]; intros pairs; simpl.
  - now rewrite app_nil_r.
  - rewrite IH, <- app_assoc. reflexivity.
Qed.


Lemma outer_loop (n : nat) (item : nat -> nat -> A) (is0 : list nat) (pairs : list A) :
  fold_left
    (fun pairs i => for_range (i + 1) n (fun pairs j => pairs ++ [item i j]) pairs)
    is0 pairs
  = pairs ++ flat_map (row n item) is0.
Proof.
  revert pairs. induction is0 as [|i l IH]; intros pairs; simpl.
  - now rewrite app_nil_r.
  - rewrite IH. unfold for_range. rewrite push_loop, <- app_assoc. reflexivity.
Qed.

Lemma pair_loop_rows (n : nat) (item : nat -> nat -> A) :
  pair_loop n item = flat_map (row n item) (seq 0 n).
Proof.
  unfold pair_loop. unfold for_range at 1. rewrite Nat.sub_0_r. apply outer_loop.
Qed.
End PairLoop.


Lemma pair_loop_map (A : Type) (n : nat) (item : nat -> nat -> A) :
  pair_loop n item = map (fun ij => item (fst ij) (snd ij)) (pairIndices n).
Proof.
  unfold pairIndices. rewrite !pair_loop_rows.
  induction (seq 0 n) as [|i l IH]; simpl; [reflexivity|].
  rewrite map_app, <- IH. f_equal.
  unfold row. rewrite map_map. reflexivity.
Qed.

Lemma rows_from_length (n a k : nat) :
  a + k = n -> 2 * length (rows_from n a k) = k * (k - 1).
Proof.
  revert a. induction k as [|k IH]; intros a Hn; [reflexivity|].
  specialize (IH (S a) ltac:(lia)).
  unfold rows_from in *. cbn [seq flat_map]. rewrite length_app.
  unfold row at 1. rewrite length_map, length_seq.
  replace (n - (a + 1)) with k by lia.
  replace (S k - 1) with k by lia.
  destruct k; [simpl in *; lia|].
  replace (S k - 1) with k in IH by lia. nia.
Qed.

Lemma rows_from_In (n a k i j : nat) :
  a + k = n -> (In (i, j) (rows_from n a k) <-> a <= i /\ i < j /\ j < n).
Proof.
  intros Hn. unfold rows_from. rewrite in_flat_map. split.
  - intros [x [Hx Hin]]. apply in_seq in Hx. unfold row in Hin.
    apply in_map_iff in Hin. destruct Hin as [y [Hy Hin]].
    apply in_seq in Hin. injection Hy as <- <-. lia.
  - intros H. exists i. split; [apply in_seq; lia|].
    unfold row. apply in_map_iff. exists j. split; [reflexivity|].
    apply in_seq. lia.
Qed.

Lemma row_sorted (n i : nat) : StronglySorted lex_lt (row n pair i).
Proof.
  unfold row. generalize (i + 1) as b, (n - (i + 1)) as k.
  intros b k. revert b. induction k as [|k IH]; intros b; simpl; constructor.
  - apply IH.
  - apply Forall_forall. intros [x y] Hin. apply in_map_iff in Hin.
    destruct Hin as [z [Hz Hin]]. injection Hz as <- <-. apply in_seq in Hin.
    right. simpl. lia.
Qed.

Lemma StronglySorted_app (A : Type) (R : A -> A -> Prop) (l1 l2 : list A) :
  StronglySorted R l1 -> StronglySorted R l2 ->
  (forall x y, In x l1 -> In y l2 -> R x y) ->
  StronglySorted R (l1 ++ l2).
Proof.
  intros H1 H2 H. induction H1 as [|x l1 Hs IH Hall]; simpl; [exact H2|].
  constructor.
  - apply IH. intros; apply H; simpl; auto.
  - apply Forall_app. split; [exact Hall|].
    apply Forall_forall. intros y Hy. apply H; simpl; auto.
Qed.

Lemma rows_from_sorted (n a k : nat) :
  a + k = n -> StronglySorted lex_lt (rows_from n a k).
Proof.
  revert a. induction k as [|k IH]; intros a Hn; [constructor|].
  change (rows_from n a (S k)) with (row n pair a ++ rows_from n (S a) k).
  apply StronglySorted_app; [apply row_sorted | apply IH; lia |].
  intros [x y] [x' y'] Hin Hin'.
  apply (@rows_from_In n (S a) k) in Hin'; [|lia].
  unfold row in Hin. apply in_map_iff in Hin. destruct Hin as [z [Hz _]].
  injection Hz as <- <-. left. simpl. lia.
Qed.

Lemma lex_lt_irrefl (p : nat * nat) : ~ lex_lt p p.
Proof. unfold lex_lt. lia. Qed.

Lemma sorted_NoDup (l : list (nat * nat)) : StronglySorted lex_lt l -> NoDup l.
Proof.
  induction 1 as [|p l Hs IH Hall]; constructor; [|exact IH].
  intros Hin. rewrite Forall_forall in Hall.
  exact (lex_lt_irrefl (Hall p Hin)).
Qed.

Lemma pairIndices_rows (n : nat) : pairIndices n = rows_from n 0 n.
Proof. unfold pairIndices. apply pair_loop_rows. Qed.

Lemma pairIndices_In (n i j : nat) : In (i, j) (pairIndices n) <-> i < j /\ j < n.
Proof. rewrite pairIndices_rows, (@rows_from_In n 0 n i j eq_refl). lia. Qed.

Lemma generatePairs_map (documents : list DocumentContent) (d : DocumentContent) :
  generatePairs documents
  = map (fun ij => (nth (fst ij) documents d, nth (snd ij) documents d))
        (pairIndices (length documents)).
Proof.
  unfold generatePairs. destruct documents as [|d0 tl]; [reflexivity|].
  remember (d0 :: tl) as docs eqn:E. clear E tl.
  rewrite pair_loop_map. apply map_ext_in. intros [i j] Hin.
  apply pairIndices_In in Hin. simpl.
  f_equal; apply nth_indep; lia.
Qed.

Lemma generatePairs_lookup (documents : list DocumentContent) :
  Forall2 (fun ij p => nth_error documents (fst ij) = Some (fst p)
                       /\ nth_error documents (snd ij) = Some (snd p))
          (pairIndices (length documents)) (generatePairs documents).
Proof.
  destruct documents as [|d0 tl]; [constructor|].
  remember (d0 :: tl) as docs eqn:E. clear E tl.
  rewrite (generatePairs_map docs d0).
  assert (Hall : Forall (fun ij => fst ij < length docs /\ snd ij < length docs)
                        (pairIndices (length docs))).
  { apply Forall_forall. intros [i j] Hin. apply pairIndices_In in Hin. simpl. lia. }
  revert Hall. generalize (pairIndices (length docs)) as idx.
  induction 1 as [|ij l [Hi Hj] _ IH]; simpl; constructor; auto.
  simpl. split; apply nth_error_nth'; assumption.
Qed.

(** C6.  For a document list of length [N] the loops push the pair of
    documents at [(i, j)] for exactly the index pairs with [i < j < N]:
    [N*(N-1)/2] of them, in lexicographic order, none twice, none with
    [i = j].  (For [N < 2] that is the empty list.) *)
Theorem generatePairs_all_pairs (documents : list DocumentContent) :
  let N := length documents in
  Forall2 (fun ij p => nth_error documents (fst ij) = Some (fst p)
                       /\ nth_error documents (snd ij) = Some (snd p))
          (pairIndices N) (generatePairs documents)
  /\ length (generatePairs documents) = N * (N - 1) / 2
  /\ (forall i j, In (i, j) (pairIndices N) <-> i < j /\ j < N)
  /\ StronglySorted lex_lt (pairIndices N)
  /\ NoDup (pairIndices N)
  /\ (forall i, ~ In (i, i) (pairIndices N)).
Proof.
  intros N.
  assert (Hsorted : StronglySorted lex_lt (pairIndices N)).
  { rewrite pairIndices_rows. now apply rows_from_sorted. }
  split; [apply generatePairs_lookup|].
  split.
  { rewrite <- (Forall2_length (generatePairs_lookup documents)).
    fold N. rewrite pairIndices_rows.
    pose proof (@rows_from_length N 0 N eq_refl) as H.
    rewrite <- H, Nat.mul_comm, Nat.div_mul; lia. }
  split; [apply pairIndices_In|].
  split; [exact Hsorted|].
  split; [now apply sorted_NoDup|].
  intros i Hin. apply pairIndices_In in Hin. lia.
Qed.

Example pairIndices_3 : pairIndices 3 = [(0, 1); (0, 2); (1, 2)].
Proof. reflexivity. Qed.

(* ================================================================== *)
(** ** Promise.all *)
(* ================================================================== *)

Section PromiseAll.
Variable A : Type.
Variable outcomes : list (Outcome A).



Lemma all_values_agree (os : list (Outcome A)) (slots : list (option A)) (values : list A) :
  Forall2 (fun o s => forall v, s = Some v -> o = Resolved v) os slots ->
  all_values slots = Some values -> os = map Resolved values.
Proof.
  intros H. revert values. induction H as [|o s os slots Hos _ IH]; intros values Hv.
  - injection Hv as <-. reflexivity.
  - simpl in Hv. destruct s as [v|]; [|discriminate].
    destruct (all_values slots) as [vs|]; [|discriminate].
    injection Hv as <-. simpl. rewrite (Hos v eq_refl), (IH vs eq_refl). reflexivity.
Qed.

Lemma set_slot_agree (os : list (Outcome A)) (slots : list (option A)) (i : nat) (v : A) :
  Forall2 (fun o s => forall v, s = Some v -> o = Resolved v) os slots ->
  nth_error os i = Some (Resolved v) ->
  Forall2 (fun o s => forall v, s = Some v -> o = Resolved v) os (set_slot slots i v).
Proof.
  intros H. revert i. induction H as [|o s os slots Hos Hrest IH]; intros i Hi.
  - constructor.
  - destruct i as [|i]; simpl in *.
    + constructor; [|exact Hrest]. intros v' Hv'. congruence.
    + constructor; [exact Hos | apply IH, Hi].
Qed.

Lemma set_slot_same (slots : list (option A)) (i : nat) (v : A) :
  i < length slots -> nth_error (set_slot slots i v) i = Some (Some v).
Proof.
  revert i. induction slots as [|s slots IH]; intros i Hi; simpl in *; [lia|].
  destruct i; simpl; [reflexivity | apply IH; lia].
Qed.

Lemma set_slot_keeps (slots : list (option A)) (i j : nat) (v w : A) :
  nth_error slots j = Some (Some w) ->
  exists w', nth_error (set_slot slots i v) j = Some (Some w').
Proof.
  revert i j. induction slots as [|s slots IH]; intros i j Hj.
  - destruct j; discriminate.
  - destruct i, j; simpl in *; eauto.
Qed.

Lemma settle_inv (settled : list nat) (st : PromiseState A) (i : nat) :
  all_inv outcomes settled st -> all_inv outcomes (settled ++ [i]) (settle outcomes st i).
Proof.
  destruct st as [slots|values|e]; simpl.
  - intros [Hagree [Hnone Hfilled]].
    destruct (nth_error outcomes i) as [[v|e]|] eqn:Ei.
    + pose proof (@set_slot_agree outcomes slots i v Hagree Ei) as Hagree'.
      destruct (all_values (set_slot slots i v)) as [values|] eqn:Ev; simpl.
      * exact (@all_values_agree _ _ _ Hagree' Ev).
      * split; [exact Hagree'|]. split; [exact Ev|].
        intros j Hj Hlt. apply in_app_or in Hj. destruct Hj as [Hj|[<-|[]]].
        -- destruct (Hfilled j Hj Hlt) as [w Hw]. eapply set_slot_keeps; exact Hw.
        -- exists v. apply set_slot_same.
           rewrite <- (Forall2_length Hagree). exact Hlt.
    + simpl. exists i. split; [apply in_or_app; right; left; reflexivity | exact Ei].
    + simpl. split; [exact Hagree|]. split; [exact Hnone|].
      intros j Hj Hlt. apply in_app_or in Hj. destruct Hj as [Hj|[<-|[]]].
      * exact (Hfilled j Hj Hlt).
      * apply nth_error_None in Ei. lia.
  - auto.
  - intros [k [Hk Ek]]. exists k. split; [apply in_or_app; left; exact Hk | exact Ek].
Qed.

Lemma fold_settle_inv (schedule settled : list nat) (st : PromiseState A) :
  all_inv outcomes settled st ->
  all_inv outcomes (settled ++ schedule) (fold_left (settle outcomes) schedule st).
Proof.
  revert settled st. induction schedule as [|i schedule IH]; intros settled st H; simpl.
  - now rewrite app_nil_r.
  - replace (settled ++ i :: schedule) with ((settled ++ [i]) ++ schedule)
      by (rewrite <- app_assoc; reflexivity).
    apply IH, settle_inv, H.
Qed.

Lemma Promise_all_inv (schedule : list nat) :
  all_inv outcomes schedule (Promise_all outcomes schedule).
Proof.
  unfold Promise_all. destruct outcomes as [|o os] eqn:E; [reflexivity|].
  rewrite <- E. apply (@fold_settle_inv schedule []).
  simpl. split; [|split].
  - unfold slots_agree. clear. induction outcomes; simpl; constructor; auto.
    intros; discriminate.
  - rewrite E. reflexivity.
  - intros i [].
Qed.


(** The values of a fulfilled result are those of the promises, by index. *)
Lemma Promise_all_fulfilled (schedule : list nat) (values : list A) :
  Promise_all outcomes schedule = Fulfilled values -> outcomes = map Resolved values.
Proof.
  intros H. pose proof (Promise_all_inv schedule) as Hinv. rewrite H in Hinv. exact Hinv.
Qed.


(** A rejected promise that has settled leaves the result rejected. *)
Lemma Promise_all_rejects (schedule : list nat) (k : nat) (e : jsstring) :
  nth_error outcomes k = Some (Thrown e) -> In k schedule ->
  exists e' k', Promise_all outcomes schedule = Rejected e'
                /\ In k' schedule /\ nth_error outcomes k' = Some (Thrown e').
Proof.
  intros Hk Hin. pose proof (Promise_all_inv schedule) as Hinv.
  destruct (Promise_all outcomes schedule) as [slots|values|e'] eqn:E; simpl in Hinv.
  - destruct Hinv as [Hagree [_ Hfilled]].
    assert (Hlt : k < length outcomes) by (apply nth_error_Some; congruence).
    destruct (Hfilled k Hin Hlt) as [v Hv].
    exfalso. clear - Hagree Hv Hk. revert k Hv Hk.
    induction Hagree as [|o s os slots Hos _ IH]; intros k Hv Hk.
    + destruct k; discriminate.
    + destruct k; simpl in *; [|eauto].
      injection Hv as ->. injection Hk as ->. specialize (Hos v eq_refl). discriminate.
  - exfalso. rewrite Hinv in Hk. rewrite nth_error_map in Hk.
    destruct (nth_error values k); discriminate.
  - destruct Hinv as [k' [Hk' Ek']]. exists e', k'. auto.
Qed.

End PromiseAll.

(* ================================================================== *)
(** ** checkPlagiarism: work items, failure, order *)
(* ================================================================== *)

Section CheckPlagiarismProofs.
Variable JSON_parse : jsstring -> option JsValue.
Variable provider : nat -> Request -> Reply.

Lemma start_all_nth (I A : Type) (work : (Request -> Reply) -> I -> Async A)
      (items : list I) (k : nat) :
  nth_error (start_all provider work items) k
  = option_map (work (provider k)) (nth_error items k).
Proof.
  unfold start_all.
  assert (H : forall a l k,
             nth_error (map (fun ki => work (provider (fst ki)) (snd ki))
                            (combine (seq a (length l)) l)) k
             = option_map (work (provider (a + k))) (nth_error l k)).
  { clear. intros a l. revert a. induction l as [|x l IH]; intros a k.
    - destruct k; reflexivity.
    - destruct k; simpl.
      + now rewrite Nat.add_0_r.
      + rewrite IH. now rewrite Nat.add_succ_r. }
  apply (H 0).
Qed.

(** Both early returns agree with awaiting an empty array of promises. *)
Lemma checkPlagiarism_await (schedule : list nat) (documents : list DocumentContent)
      (isOnlineCheck : bool) :
  checkPlagiarism JSON_parse provider schedule documents isOnlineCheck
  = await_all schedule (analysisPromises JSON_parse provider documents isOnlineCheck).
Proof.
  unfold checkPlagiarism. destruct isOnlineCheck.
  - destruct documents as [|d tl]; reflexivity.
  - destruct documents as [|d [|d' tl]]; reflexivity.
Qed.

Lemma includes_intro (a n b : jsstring) : includes n (a ++ n ++ b).
Proof. exists a, b. reflexivity. Qed.

Lemma pairErrorMessage_names (d1 d2 : DocumentContent) :
  includes (name d1) (pairErrorMessage d1 d2)
  /\ includes (name d2) (pairErrorMessage d1 d2).
Proof.
  unfold pairErrorMessage. split.
  - apply includes_intro.
  - exists (js "Failed to analyze documents: " ++ name d1 ++ js " and "),
      (js ". The API returned an error.").
    rewrite <- !app_assoc. reflexivity.
Qed.

Lemma pairWork_outcome (g : Request -> Reply) (d1 d2 : DocumentContent) :
  match outcome (pairWork JSON_parse g (d1, d2)) with
  | Resolved v => exists r, v = Pairwise r /\ ComparisonResult.file1 r = name d1
                            /\ ComparisonResult.file2 r = name d2
  | Thrown e => e = pairErrorMessage d1 d2
  end.
Proof.
  unfold pairWork, analyzePair, outcome. simpl.
  destruct (g (PairRequest d1 d2)) as [response|m]; simpl; [|reflexivity].
  destruct (text response) as [t|]; simpl; [|reflexivity].
  destruct (JSON_parse (trim t)) as [parsed|]; simpl; [|reflexivity].
  destruct (get_prop parsed (js "similarity")); simpl; [|reflexivity].
  destruct (get_prop parsed (js "matched_sentences")); simpl; [|reflexivity].
  eexists; repeat split.
Qed.

Lemma pairWork_rejected (g : Request -> Reply) (p : DocumentContent * DocumentContent)
      (req : Request) (m : jsstring) :
  In req (call_log (pairWork JSON_parse g p)) -> g req = Rejects m ->
  outcome (pairWork JSON_parse g p) = Thrown (pairErrorMessage (fst p) (snd p)).
Proof.
  unfold pairWork, analyzePair, call_log, outcome. simpl.
  intros [<-|[]] Hg. rewrite Hg. reflexivity.
Qed.

Lemma onlineWork_outcome (g : Request -> Reply) (doc : DocumentContent) :
  match outcome (onlineWork JSON_parse g doc) with
  | Resolved v => exists r, v = Online r /\ OnlineComparisonResult.file1 r = name doc
  | Thrown e => e = onlineErrorMessage (name doc)
                \/ exists m, e = extractErrorMessage doc m
  end.
Proof.
  unfold onlineWork, extractTextFromDoc, analyzeContentOnline, bind, outcome.
  destruct (g (ExtractTextRequest doc)) as [response|m]; simpl; [|eauto].
  destruct (text response) as [t|]; simpl; [|eauto].
  destruct (negb (truthy_string t) || (length (trim t) =? 0)); simpl; [eauto|].
  destruct (g (OnlineRequest t)) as [response'|m']; simpl; [|auto].
  unfold onlineResultOf.
  destruct (text response') as [t'|]; simpl; [|auto].
  destruct (extractJsonFromText JSON_parse t') as [parsed|err]; simpl; [|auto].
  destruct (get_prop parsed (js "matched_sentences")) as [[]|]; simpl; auto.
  destruct (get_prop parsed (js "similarity")) as [[]|]; simpl; auto.
  eexists; split; reflexivity.
Qed.

Lemma onlineWork_rejected (g : Request -> Reply) (doc : DocumentContent)
      (req : Request) (m : jsstring) :
  In req (call_log (onlineWork JSON_parse g doc)) -> g req = Rejects m ->
  exists e, outcome (onlineWork JSON_parse g doc) = Thrown e.
Proof.
  unfold onlineWork, extractTextFromDoc, analyzeContentOnline, bind, call_log, outcome.
  destruct (g (ExtractTextRequest doc)) as [response|m0] eqn:Eg; simpl; [|eauto].
  destruct (text response) as [t|]; simpl; [|eauto].
  destruct (negb (truthy_string t) || (length (trim t) =? 0)); simpl; [eauto|].
  intros [<-|[<-|[]]] Hg.
  - congruence.
  - rewrite Hg. simpl. eauto.
Qed.

Lemma onlineErrorMessage_names (docName : jsstring) :
  includes docName (onlineErrorMessage docName).
Proof. apply includes_intro. Qed.

Lemma extractErrorMessage_names (doc : DocumentContent) (m : jsstring) :
  includes (name doc) (extractErrorMessage doc m).
Proof. apply includes_intro. Qed.

(** The error a work item throws identifies the item. *)
Lemma thrown_identifies (documents : list DocumentContent) (isOnlineCheck : bool)
      (k : nat) (e : jsstring) :
  nth_error (map (@outcome _) (analysisPromises JSON_parse provider documents isOnlineCheck)) k
  = Some (Thrown e) ->
  identifies_item documents isOnlineCheck k e.
Proof.
  rewrite nth_error_map. unfold analysisPromises, identifies_item.
  destruct isOnlineCheck; rewrite start_all_nth.
  - destruct (nth_error documents k) as [doc|]; [|discriminate]. cbn [option_map].
    intros H. exists doc. split; [reflexivity|].
    pose proof (onlineWork_outcome (provider k) doc) as Ho.
    destruct (outcome (onlineWork JSON_parse (provider k) doc)); [discriminate|].
    injection H as ->.
    destruct Ho as [->|[m ->]];
      [apply onlineErrorMessage_names | apply extractErrorMessage_names].
  - destruct (nth_error (generatePairs documents) k) as [[d1 d2]|]; [|discriminate].
    cbn [option_map]. intros H. exists d1, d2. split; [reflexivity|].
    pose proof (pairWork_outcome (provider k) d1 d2) as Ho.
    destruct (outcome (pairWork JSON_parse (provider k) (d1, d2))); [discriminate|].
    injection H as ->. rewrite Ho. apply pairErrorMessage_names.
Qed.


(** A rejected provider call makes its work item throw. *)
Lemma rejected_call_throws (documents : list DocumentContent) (isOnlineCheck : bool)
      (k : nat) (task : Async AnalysisResult) (req : Request) (m : jsstring) :
  nth_error (analysisPromises JSON_parse provider documents isOnlineCheck) k = Some task ->
  In req (call_log task) -> provider k req = Rejects m ->
  exists e, outcome task = Thrown e.
Proof.
  unfold analysisPromises. destruct isOnlineCheck; rewrite start_all_nth.
  - destruct (nth_error documents k) as [doc|]; [|discriminate]. cbn [option_map].
    intros H. injection H as <-. apply onlineWork_rejected.
  - destruct (nth_error (generatePairs documents) k) as [p|]; [|discriminate]. cbn [option_map].
    intros H. injection H as <-. intros Hin Hg.
    eexists. eapply pairWork_rejected; eassumption.
Qed.
End CheckPlagiarismProofs.

(** C8.  In pairwise mode a document list of length below 2 gives the empty
    result set, and no request is issued to the provider. *)
Theorem pairwise_needs_two_documents
        (JSON_parse : jsstring -> option JsValue) (provider : nat -> Request -> Reply)
        (schedule : list nat) (documents : list DocumentContent) :
  length documents < 2 ->
  checkPlagiarism JSON_parse provider schedule documents false
  = {| requests := []; result := Fulfilled [] |}.
Proof.
  intros H. unfold checkPlagiarism.
  destruct (length documents <? 2) eqn:E; [reflexivity|].
  apply Nat.ltb_ge in E. lia.
Qed.

Lemma pairwise_needs_two_documents_witness :
  checkPlagiarism json_parse steady_provider [0] [document "a.txt"] false
  = {| requests := []; result := Fulfilled [] |}.
Proof.
  apply (@pairwise_needs_two_documents json_parse steady_provider [0] [document "a.txt"]).
  simpl. lia.
Defined.

(** C4.  If a provider call of some work item fails, the run never fulfils
    (no result list, partial or whole, is returned); and once that work item
    has settled the run is rejected with one message, the error thrown by a
    failed work item, which contains the name of its document or of both
    documents of its pair. *)
Theorem fail_fast
        (JSON_parse : jsstring -> option JsValue) (provider : nat -> Request -> Reply)
        (schedule : list nat) (documents : list DocumentContent) (isOnlineCheck : bool)
        (k : nat) (task : Async AnalysisResult) (req : Request) (m : jsstring) :
  nth_error (analysisPromises JSON_parse provider documents isOnlineCheck) k = Some task ->
  In req (call_log task) ->
  provider k req = Rejects m ->
  let run := checkPlagiarism JSON_parse provider schedule documents isOnlineCheck in
  (forall values, result run <> Fulfilled values)
  /\ (In k schedule ->
      exists e k',
        result run = Rejected e
        /\ nth_error (map (@outcome _)
                          (analysisPromises JSON_parse provider documents isOnlineCheck)) k'
           = Some (Thrown e)
        /\ identifies_item documents isOnlineCheck k' e).
Proof.
  intros Htask Hreq Hfail run. subst run. rewrite checkPlagiarism_await. simpl.
  destruct (@rejected_call_throws JSON_parse provider documents isOnlineCheck k task req m
              Htask Hreq Hfail) as [e0 He0].
  set (tasks := analysisPromises JSON_parse provider documents isOnlineCheck) in *.
  assert (Hk : nth_error (map (@outcome _) tasks) k = Some (Thrown e0)).
  { rewrite nth_error_map, Htask. simpl. now rewrite He0. }
  split.
  - intros values Hf. apply Promise_all_fulfilled in Hf.
    rewrite Hf, nth_error_map in Hk. destruct (nth_error values k); discriminate.
  - intros Hin.
    destruct (@Promise_all_rejects _ _ schedule k e0 Hk Hin) as [e [k' [Hr [_ Hk']]]].
    exists e, k'. split; [exact Hr|]. split; [exact Hk'|].
    eapply thrown_identifies. exact Hk'.
Qed.

Lemma fail_fast_witness :
  let run := checkPlagiarism json_parse flaky_provider [2; 0; 1] three_documents false in
  (forall values, result run <> Fulfilled values)
  /\ exists e k',
       result run = Rejected e
       /\ nth_error (map (@outcome _)
                         (analysisPromises json_parse flaky_provider three_documents false)) k'
          = Some (Thrown e)
       /\ identifies_item three_documents false k' e.
Proof.
  pose proof (@fail_fast json_parse flaky_provider [2; 0; 1] three_documents false 1
                (pairWork json_parse (flaky_provider 1)
                          (document "a.txt", document "c.txt"))
                (PairRequest (document "a.txt") (document "c.txt"))
                (js "quota exceeded")) as H.
  destruct H as [H1 H2].
  - vm_compute. reflexivity.
  - simpl. left. reflexivity.
  - reflexivity.
  - split; [exact H1|]. apply H2. simpl. auto.
Defined.



(* ================================================================== *)
(** ** Sources: filtering and deduplication *)
(* ================================================================== *)

Lemma jsstring_eqb_eq (a b : jsstring) : jsstring_eqb a b = true <-> a = b.
Proof.
  unfold jsstring_eqb. destruct (list_eq_dec N.eq_dec a b); split; congruence.
Qed.

Lemma jsstring_eqb_neq (a b : jsstring) : jsstring_eqb a b = false <-> a <> b.
Proof.
  unfold jsstring_eqb. destruct (list_eq_dec N.eq_dec a b); split; congruence.
Qed.

Lemma jsstring_eqb_refl (a : jsstring) : jsstring_eqb a a = true.
Proof. now apply jsstring_eqb_eq. Qed.

Section MapFacts.
Variable V : Type.
Implicit Types (m entries : list (jsstring * V)) (k : jsstring) (v : V).


Lemma Map_get_set m k v k' :
  Map_get (Map_set m k v) k' = if jsstring_eqb k k' then Some v else Map_get m k'.
Proof.
  induction m as [|[k0 v0] m IH]; simpl.
  - reflexivity.
  - destruct (jsstring_eqb k0 k) eqn:E0; simpl.
    + apply jsstring_eqb_eq in E0. subst k0. destruct (jsstring_eqb k k'); reflexivity.
    + destruct (jsstring_eqb k0 k') eqn:E1.
      * apply jsstring_eqb_eq in E1. subst k'.
        destruct (jsstring_eqb k k0) eqn:E2; [|reflexivity].
        apply jsstring_eqb_eq in E2. subst. rewrite jsstring_eqb_refl in E0. discriminate.
      * exact IH.
Qed.

Lemma keys_Map_set_old m k v : In k (keys m) -> keys (Map_set m k v) = keys m.
Proof.
  induction m as [|[k0 v0] m IH]; simpl; [tauto|].
  intros H. destruct (jsstring_eqb k0 k) eqn:E0; simpl; [reflexivity|].
  f_equal. apply IH. destruct H as [H|H]; [|exact H].
  subst. rewrite jsstring_eqb_refl in E0. discriminate.
Qed.

Lemma keys_Map_set_new m k v : ~ In k (keys m) -> keys (Map_set m k v) = keys m ++ [k].
Proof.
  induction m as [|[k0 v0] m IH]; simpl; [reflexivity|].
  intros H. destruct (jsstring_eqb k0 k) eqn:E0; simpl.
  - apply jsstring_eqb_eq in E0. tauto.
  - f_equal. apply IH. tauto.
Qed.

Lemma Map_get_In m k v : Map_get m k = Some v -> In (k, v) m.
Proof.
  induction m as [|[k0 v0] m IH]; simpl; [discriminate|].
  destruct (jsstring_eqb k0 k) eqn:E0.
  - apply jsstring_eqb_eq in E0. intros H. injection H as <-. subst. now left.
  - intros H. right. auto.
Qed.

Lemma In_Map_get m k v : NoDup (keys m) -> In (k, v) m -> Map_get m k = Some v.
Proof.
  induction m as [|[k0 v0] m IH]; simpl; [tauto|].
  intros Hnd [H|H].
  - injection H as -> ->. now rewrite jsstring_eqb_refl.
  - inversion Hnd as [|? ? Hnotin Hnd']; subst.
    destruct (jsstring_eqb k0 k) eqn:E0; [|auto].
    apply jsstring_eqb_eq in E0. subst k0. exfalso. apply Hnotin.
    change k with (fst (k, v)). now apply in_map.
Qed.
End MapFacts.

Lemma filter_both (A : Type) (P Q : A -> bool) (l : list A) :
  filter P (filter Q l) = filter (fun x => Q x && P x) l.
Proof.
  induction l as [|x l IH]; simpl; [reflexivity|].
  destruct (Q x); simpl; [destruct (P x)|]; rewrite IH; reflexivity.
Qed.

Lemma filter_first_occurrences (P : jsstring -> bool) (l : list jsstring) :
  filter P (first_occurrences l) = first_occurrences (filter P l).
Proof.
  induction l as [|x l IH]; simpl; [reflexivity|].
  destruct (P x) eqn:Px; simpl; rewrite <- IH, !filter_both.
  - f_equal. apply filter_ext. intros y. apply andb_comm.
  - apply filter_ext. intros y. destruct (jsstring_eqb y x) eqn:E; simpl; [|reflexivity].
    apply jsstring_eqb_eq in E. subst y. symmetry. exact Px.
Qed.


Lemma first_occurrences_NoDup (l : list jsstring) : NoDup (first_occurrences l).
Proof.
  induction l as [|x l IH]; simpl; constructor.
  - rewrite filter_In, negb_true_iff, jsstring_eqb_neq. tauto.
  - now apply NoDup_filter.
Qed.

Section MapOf.
Variable V : Type.

Lemma keys_fold_set (entries m : list (jsstring * V)) :
  keys (fold_left (fun m e => Map_set m (fst e) (snd e)) entries m)
  = keys m ++ first_occurrences
                (filter (fun k => negb (existsb (jsstring_eqb k) (keys m))) (keys entries)).
Proof.
  revert m. induction entries as [|[k v] entries IH]; intros m; simpl.
  - now rewrite app_nil_r.
  - rewrite IH. destruct (existsb (jsstring_eqb k) (keys m)) eqn:E; simpl.
    + assert (Hin : In k (keys m)).
      { apply existsb_exists in E. destruct E as [x [Hx Ex]].
        apply jsstring_eqb_eq in Ex. now subst. }
      rewrite keys_Map_set_old by exact Hin. reflexivity.
    + assert (Hnot : ~ In k (keys m)).
      { intros Hin. apply Bool.not_true_iff_false in E. apply E.
        apply existsb_exists. exists k. split; [exact Hin | apply jsstring_eqb_refl]. }
      rewrite keys_Map_set_new by exact Hnot. rewrite <- app_assoc. simpl. do 2 f_equal.
      rewrite filter_first_occurrences, filter_both. f_equal.
      apply filter_ext. intros k'. rewrite existsb_app. simpl.
      rewrite orb_false_r, negb_orb. reflexivity.
Qed.

Lemma keys_Map_of (entries : list (jsstring * V)) :
  keys (Map_of entries) = first_occurrences (keys entries).
Proof.
  unfold Map_of. rewrite keys_fold_set. simpl. f_equal.
  induction (keys entries); simpl; congruence.
Qed.

Lemma get_fold_set (entries m : list (jsstring * V)) (k : jsstring) :
  Map_get (fold_left (fun m e => Map_set m (fst e) (snd e)) entries m) k
  = match Map_get (rev entries) k with
    | Some v => Some v
    | None => Map_get m k
    end.
Proof.
  revert m. induction entries as [|[k0 v0] entries IH]; intros m; simpl; [reflexivity|].
  rewrite IH, Map_get_set.
  assert (Happ : forall l, Map_get (l ++ [(k0, v0)]) k
                           = match Map_get l k with
                             | Some v => Some v
                             | None => if jsstring_eqb k0 k then Some v0 else None
                             end).
  { induction l as [|[a b] l IHl]; simpl; [reflexivity|].
    destruct (jsstring_eqb a k); [reflexivity | exact IHl]. }
  rewrite Happ. destruct (Map_get (rev entries) k); [reflexivity|].
  destruct (jsstring_eqb k0 k); reflexivity.
Qed.

(** [get] on [new Map(entries)] finds the last entry with the key. *)
Lemma get_Map_of (entries : list (jsstring * V)) (k : jsstring) :
  Map_get (Map_of entries) k = Map_get (rev entries) k.
Proof.
  unfold Map_of. rewrite get_fold_set. destruct (Map_get (rev entries) k); reflexivity.
Qed.

Lemma get_rev_last (entries : list (jsstring * V)) (k : jsstring) (v : V) :
  Map_get (rev entries) k = Some v <->
  exists before after,
    entries = before ++ (k, v) :: after /\ ~ In k (keys after).
Proof.
  split.
  - induction entries as [|[k0 v0] entries IH] using rev_ind; [discriminate|].
    rewrite rev_unit. simpl. destruct (jsstring_eqb k0 k) eqn:E.
    + apply jsstring_eqb_eq in E. subst k0. intros H. injection H as <-.
      exists entries, []. simpl. auto.
    + intros H. destruct (IH H) as [before [after [-> Hnot]]].
      exists before, (after ++ [(k0, v0)]). rewrite <- app_assoc. simpl.
      split; [reflexivity|].
      unfold keys in *. rewrite map_app, in_app_iff. simpl.
      apply jsstring_eqb_neq in E. tauto.
  - intros [before [after [-> Hnot]]]. rewrite rev_app_distr. simpl.
    rewrite <- app_assoc. simpl.
    induction after as [|[a b] after IH] using rev_ind; simpl.
    + now rewrite jsstring_eqb_refl.
    + rewrite rev_unit. simpl. unfold keys in Hnot. rewrite map_app, in_app_iff in Hnot.
      simpl in Hnot. destruct (jsstring_eqb a k) eqn:E.
      * apply jsstring_eqb_eq in E. tauto.
      * apply IH. unfold keys. tauto.
Qed.
End MapOf.

Section UniqueSources.
Variable sources : list Source.


Lemma keys_source_entries : keys (source_entries sources) = map uri sources.
Proof. unfold keys, source_entries. rewrite map_map. reflexivity. Qed.

Lemma Map_of_sources_NoDup : NoDup (keys (Map_of (source_entries sources))).
Proof. rewrite keys_Map_of. apply first_occurrences_NoDup. Qed.

Lemma Map_of_sources_keyed (k : jsstring) (s : Source) :
  In (k, s) (Map_of (source_entries sources)) -> k = uri s /\ In s sources.
Proof.
  intros H. apply In_Map_get in H; [|apply Map_of_sources_NoDup].
  rewrite get_Map_of in H. apply Map_get_In, in_rev in H.
  unfold source_entries in H. apply in_map_iff in H.
  destruct H as [s' [Hs' Hin]]. injection Hs' as <- <-. auto.
Qed.

(** The URIs of the deduplicated list: those of the input, each at the
    place of its first occurrence. *)
Lemma uniqueSources_uris :
  map uri (uniqueSourcesOf sources) = first_occurrences (map uri sources).
Proof.
  unfold uniqueSourcesOf, Map_values. fold (source_entries sources).
  rewrite <- keys_source_entries, <- keys_Map_of. unfold keys.
  rewrite map_map. apply map_ext_in. intros [k s] Hin. simpl.
  symmetry. now apply Map_of_sources_keyed.
Qed.

(** The entries of the deduplicated list: for each URI the last source
    that has it. *)
Lemma uniqueSources_last (s : Source) :
  In s (uniqueSourcesOf sources) <-> last_with_uri sources s.
Proof.
  unfold uniqueSourcesOf, Map_values. fold (source_entries sources). split.
  - intros H. apply in_map_iff in H. destruct H as [[k s'] [Hs Hin]].
    simpl in Hs. subst s'.
    destruct (Map_of_sources_keyed _ _ Hin) as [-> _].
    apply In_Map_get in Hin; [|apply Map_of_sources_NoDup].
    rewrite get_Map_of in Hin. apply get_rev_last in Hin.
    destruct Hin as [before [after [Heq Hnot]]].
    unfold source_entries in Heq. apply map_eq_app in Heq.
    destruct Heq as [b [rest [-> [<- Hrest]]]].
    apply map_eq_cons in Hrest. destruct Hrest as [s0 [a [-> [Hs0 <-]]]].
    injection Hs0 as _ ->. exists b, a. split; [reflexivity|].
    intros s' Hs' Heq. apply Hnot. unfold keys. rewrite map_map. simpl.
    rewrite <- Heq. now apply in_map.
  - intros [before [after [Heq Hnot]]].
    apply in_map_iff. exists (uri s, s). split; [reflexivity|].
    apply Map_get_In. rewrite get_Map_of. apply get_rev_last.
    exists (map (fun item => (uri item, item)) before),
      (map (fun item => (uri item, item)) after).
    unfold source_entries. rewrite Heq, map_app. simpl. split; [reflexivity|].
    unfold keys. rewrite map_map. simpl. intros Hin. apply in_map_iff in Hin.
    destruct Hin as [s' [Hu Hs']]. exact (Hnot s' Hs' Hu).
Qed.
End UniqueSources.

Lemma sourcesOf_In (chunks : list GroundingChunk) (s : Source) :
  In s (sourcesOf chunks) <-> (exists c, In c chunks /\ chunkSource c = s) /\ uri s <> [].
Proof.
  unfold sourcesOf. rewrite filter_In, in_map_iff.
  assert (H : truthy_string (uri s) = true <-> uri s <> []).
  { destruct (uri s); simpl; split; congruence. }
  rewrite H. split; intros [[c [H1 H2]] H3]; (split; [exists c; auto | exact H3]).
Qed.

(** The specification's example: the code keeps the title [A2]. *)
Lemma dedup_keeps_last_title :
  uniqueSourcesOf (sourcesOf example_citations)
  = [ {| uri := js "a"; title := js "A2" |}; {| uri := js "b"; title := js "B" |} ]
  /\ dedup_first_wins (sourcesOf example_citations)
     = [ {| uri := js "a"; title := js "A1" |}; {| uri := js "b"; title := js "B" |} ]
  /\ uniqueSourcesOf (sourcesOf example_citations)
     <> dedup_first_wins (sourcesOf example_citations).
Proof.
  split; [vm_compute; reflexivity|]. split; [vm_compute; reflexivity|].
  vm_compute. intros H. discriminate H.
Qed.

(** C2, as the code has it.  Citations whose URI is empty or absent are
    removed; of the rest one source per URI survives, placed where the URI
    first occurs in the input, and it is the last citation with that URI
    (so the title of the last occurrence is kept). *)
Theorem dedup_order_first_title_last (chunks : list GroundingChunk) :
  let sources := sourcesOf chunks in
  let unique := uniqueSourcesOf sources in
  (forall s, In s sources <-> (exists c, In c chunks /\ chunkSource c = s) /\ uri s <> [])
  /\ map uri unique = first_occurrences (map uri sources)
  /\ NoDup (map uri unique)
  /\ (forall s, In s unique <-> last_with_uri sources s).
Proof.
  intros sources unique. split; [apply sourcesOf_In|].
  split; [apply uniqueSources_uris|].
  split; [unfold unique; rewrite uniqueSources_uris; apply first_occurrences_NoDup|].
  apply uniqueSources_last.
Qed.





(* ================================================================== *)
(** ** The similarity of a result *)
(* ================================================================== *)

(** A reply that scores 150 yields a result with similarity 150, in either
    mode: nothing confines the value to [0, 100]. *)
Lemma similarity_out_of_range :
  (exists r,
      outcome (analyzeContentOnline json_parse (steady_provider 0)
                                    (js "essay.txt") (js "some text"))
      = Resolved r
      /\ ~ (0 <= OnlineComparisonResult.similarity r
            /\ OnlineComparisonResult.similarity r <= 100)%Q)
  /\ (exists r,
         outcome (analyzePair json_parse (flaky_provider 0)
                              (document "a.txt") (document "b.txt"))
         = Resolved r
         /\ ComparisonResult.similarity r = JNum 150).
Proof.
  split.
  - eexists. split; [vm_compute; reflexivity|]. simpl.
    intros [_ H]. vm_compute in H. apply H. reflexivity.
  - eexists. split; vm_compute; reflexivity.
Qed.

(** C3, as the code has it.  The similarity of a result is the [similarity]
    property of the parsed reply, copied as it is: an online result exists
    only if that property is a number, a pairwise result carries whatever
    value the property has.  No range is enforced: a well-shaped reply with
    similarity [q] yields a result with similarity [q], whatever [q] is. *)
Theorem similarity_is_reply_value
        (JSON_parse : jsstring -> option JsValue) (generateContent : Request -> Reply) :
  (forall docName textContent r,
      outcome (analyzeContentOnline JSON_parse generateContent docName textContent)
      = Resolved r ->
      exists response t parsed,
        generateContent (OnlineRequest textContent) = Responds response
        /\ text response = Some t
        /\ extractJsonFromText JSON_parse t = inl parsed
        /\ get_prop parsed (js "similarity")
           = Some (JNum (OnlineComparisonResult.similarity r)))
  /\ (forall doc1 doc2 r,
         outcome (analyzePair JSON_parse generateContent doc1 doc2) = Resolved r ->
         exists response t parsed,
           generateContent (PairRequest doc1 doc2) = Responds response
           /\ text response = Some t
           /\ JSON_parse (trim t) = Some parsed
           /\ get_prop parsed (js "similarity") = Some (ComparisonResult.similarity r))
  /\ (forall docName textContent response t parsed q rawSentences,
         generateContent (OnlineRequest textContent) = Responds response ->
         text response = Some t ->
         extractJsonFromText JSON_parse t = inl parsed ->
         get_prop parsed (js "similarity") = Some (JNum q) ->
         get_prop parsed (js "matched_sentences") = Some (JArr rawSentences) ->
         exists r,
           outcome (analyzeContentOnline JSON_parse generateContent docName textContent)
           = Resolved r
           /\ OnlineComparisonResult.similarity r = q)
  /\ (forall doc1 doc2 response t parsed v m,
         generateContent (PairRequest doc1 doc2) = Responds response ->
         text response = Some t ->
         JSON_parse (trim t) = Some parsed ->
         get_prop parsed (js "similarity") = Some v ->
         get_prop parsed (js "matched_sentences") = Some m ->
         exists r,
           outcome (analyzePair JSON_parse generateContent doc1 doc2) = Resolved r
           /\ ComparisonResult.similarity r = v).
Proof.
  split; [|split; [|split]].
  - intros docName textContent r. unfold analyzeContentOnline, outcome. simpl.
    destruct (generateContent (OnlineRequest textContent)) as [response|m]; [|discriminate].
    unfold onlineResultOf.
    destruct (text response) as [t|] eqn:Et; [|discriminate].
    destruct (extractJsonFromText JSON_parse t) as [parsed|] eqn:Ex; [|discriminate].
    destruct (get_prop parsed (js "matched_sentences")) as [[]|]; try discriminate.
    destruct (get_prop parsed (js "similarity")) as [[]|] eqn:Es; try discriminate.
    intros H. injection H as <-. exists response, t, parsed. simpl. auto.
  - intros doc1 doc2 r. unfold analyzePair, outcome. simpl.
    destruct (generateContent (PairRequest doc1 doc2)) as [response|m]; [|discriminate].
    destruct (text response) as [t|] eqn:Et; [|discriminate].
    destruct (JSON_parse (trim t)) as [parsed|] eqn:Ep; [|discriminate].
    destruct (get_prop parsed (js "similarity")) as [sim|] eqn:Es; [|discriminate].
    destruct (get_prop parsed (js "matched_sentences")); [|discriminate].
    intros H. injection H as <-. exists response, t, parsed. simpl. auto.
  - intros docName textContent response t parsed q rawSentences Hg Ht Hx Hs Hm.
    unfold analyzeContentOnline, outcome, onlineResultOf. simpl.
    rewrite Hg, Ht, Hx, Hm, Hs. eexists. split; reflexivity.
  - intros doc1 doc2 response t parsed v m Hg Ht Hp Hs Hm.
    unfold analyzePair, outcome. simpl.
    rewrite Hg, Ht, Hp, Hs, Hm. eexists. split; reflexivity.
Qed.

Lemma similarity_is_reply_value_witness :
  (exists r parsed,
      outcome (analyzeContentOnline json_parse (steady_provider 0)
                                    (js "essay.txt") (js "some text"))
      = Resolved r
      /\ extractJsonFromText json_parse (jq "{'similarity': 150, 'matched_sentences': []}")
         = inl parsed
      /\ get_prop parsed (js "similarity")
         = Some (JNum (OnlineComparisonResult.similarity r)))
  /\ (exists r,
         outcome (analyzePair json_parse (flaky_provider 0)
                              (document "a.txt") (document "b.txt"))
         = Resolved r
         /\ ComparisonResult.similarity r = JNum 150).
Proof.
  destruct (similarity_is_reply_value json_parse (steady_provider 0)) as [Honline _].
  destruct (similarity_is_reply_value json_parse (flaky_provider 0)) as [_ [_ [_ Hpair]]].
  split.
  - destruct (outcome (analyzeContentOnline json_parse (steady_provider 0)
                                            (js "essay.txt") (js "some text")))
      as [r|e] eqn:E; [|vm_compute in E; discriminate E].
    destruct (Honline _ _ _ E) as [response [t [parsed [H1 [H2 [H3 H4]]]]]].
    exists r, parsed. split; [reflexivity|].
    injection H1 as <-. injection H2 as <-. auto.
  - apply (Hpair (document "a.txt") (document "b.txt")
                 {| text := Some (jq " {'similarity': 150, 'matched_sentences': ['x']} ");
                    candidates := None |}
                 (jq " {'similarity': 150, 'matched_sentences': ['x']} ")
                 (JObj [(js "similarity", JNum 150);
                        (js "matched_sentences", JArr [JStr (js "x")])])
                 (JNum 150) (JArr [JStr (js "x")]));
      vm_compute; reflexivity.
Defined.
(* ================================================================== *)
(** ** extractJsonFromText: what the two patterns match *)
(* ================================================================== *)

Lemma strip_prefix_app (p r : jsstring) : strip_prefix p (p ++ r) = Some r.
Proof.
  induction p as [|c p IH]; simpl; [reflexivity|]. now rewrite N.eqb_refl.
Qed.

Lemma strip_prefix_Some (p s r : jsstring) : strip_prefix p s = Some r -> s = p ++ r.
Proof.
  revert s. induction p as [|c p IH]; intros s; simpl.
  - intros H. now injection H as ->.
  - destruct s as [|x s]; [discriminate|].
    destruct (c =? x)%N eqn:E; [|discriminate].
    apply N.eqb_eq in E. subst x. intros H. now rewrite (IH _ H).
Qed.

Lemma drop_spaces_spaces (ws s : jsstring) :
  Forall (fun c => is_space c = true) ws -> drop_spaces (ws ++ s) = drop_spaces s.
Proof.
  induction 1 as [|c ws Hc _ IH]; simpl; [reflexivity|]. now rewrite Hc.
Qed.

Lemma drop_spaces_keeps (c : N) (s : jsstring) :
  is_space c = false -> drop_spaces (c :: s) = c :: s.
Proof. intros H. simpl. now rewrite H. Qed.



Lemma match_here_jsonRegex (inp : jsstring) :
  match_here jsonRegex inp
  = match match strip_prefix FENCE inp with
          | Some rest0 => fence_tail rest0
          | None => None
          end with
    | Some m => Some m
    | None => brace_match inp
    end.
Proof. reflexivity. Qed.

Lemma consumed_app (a b : jsstring) : consumed (a ++ b) b = a.
Proof.
  unfold consumed. rewrite length_app, Nat.add_sub.
  rewrite firstn_app, Nat.sub_diag, firstn_all. simpl. apply app_nil_r.
Qed.

Section Continuations.
Variable A : Type.

Lemma star_greedy_ext (c : N -> bool) (inp : jsstring) (k k' : jsstring -> option A) :
  (forall s, k s = k' s) -> star_greedy c inp k = star_greedy c inp k'.
Proof.
  intros H. induction inp as [|x tl IH]; simpl; [apply H|].
  rewrite IH, H. reflexivity.
Qed.

Lemma star_lazy_ext (c : N -> bool) (inp : jsstring) (k k' : jsstring -> option A) :
  (forall s, k s = k' s) -> star_lazy c inp k = star_lazy c inp k'.
Proof.
  intros H. induction inp as [|x tl IH]; simpl; rewrite H; [reflexivity|].
  rewrite IH. reflexivity.
Qed.

(** A greedy [\s*] in front of something that cannot start with white
    space takes all the white space there is. *)
Lemma star_greedy_commit (inp : jsstring) (k : jsstring -> option A) :
  (forall x tl, is_space x = true -> k (x :: tl) = None) ->
  star_greedy is_space inp k = k (drop_spaces inp).
Proof.
  intros H. induction inp as [|x tl IH]; simpl; [reflexivity|].
  destruct (is_space x) eqn:E; [|reflexivity].
  rewrite IH, (H x tl E). destruct (k (drop_spaces tl)); reflexivity.
Qed.

(** A lazy [[\s\S]*?] passes over a prefix at no position of which the
    continuation succeeds. *)
Lemma star_lazy_skip (pre rest : jsstring) (k : jsstring -> option A) :
  (forall a b, pre = a ++ b -> b <> [] -> k (b ++ rest) = None) ->
  star_lazy any_char (pre ++ rest) k = star_lazy any_char rest k.
Proof.
  induction pre as [|x pre IH]; intros H; [reflexivity|].
  pose proof (H [] (x :: pre) eq_refl ltac:(discriminate)) as H0.
  simpl in *. rewrite H0.
  apply IH. intros a b -> Hb. apply (H (x :: a) b eq_refl Hb).
Qed.

(** A greedy [[\s\S]*] backtracks to the last position at which the
    continuation succeeds. *)
Lemma star_greedy_last (pre rest : jsstring) (k : jsstring -> option A) (r : A) :
  star_greedy any_char rest k = Some r ->
  star_greedy any_char (pre ++ rest) k = Some r.
Proof.
  intros H. induction pre as [|x pre IH]; simpl; [exact H|]. now rewrite IH.
Qed.
End Continuations.

Lemma space_not_backtick (x : N) (tl : jsstring) :
  is_space x = true -> strip_prefix BACKTICKS (x :: tl) = None.
Proof.
  intros H. change BACKTICKS with [96; 96; 96]%N. cbn [strip_prefix].
  destruct (96 =? x)%N eqn:E; [|reflexivity].
  apply N.eqb_eq in E. subst x. discriminate H.
Qed.



Lemma lazy_none (rest1 s : jsstring) :
  star_lazy any_char s (close_at rest1) = None <-> has_close s = false.
Proof.
  induction s as [|x tl IH]; cbn [star_lazy has_close any_char]; unfold close_at at 1.
  - destruct (strip_prefix BACKTICKS (drop_spaces [])); split; congruence.
  - destruct (strip_prefix BACKTICKS (drop_spaces (x :: tl))); [split; congruence|].
    exact IH.
Qed.

Lemma has_close_unfold (s : jsstring) :
  has_close s
  = match strip_prefix BACKTICKS (drop_spaces s) with
    | Some _ => true
    | None => match s with [] => false | _ :: tl => has_close tl end
    end.
Proof. destruct s; reflexivity. Qed.

Lemma has_close_space (x : N) (tl : jsstring) :
  is_space x = true -> has_close (x :: tl) = has_close tl.
Proof.
  intros H. rewrite (has_close_unfold (x :: tl)). cbn [drop_spaces]. rewrite H.
  destruct (strip_prefix BACKTICKS (drop_spaces tl)) eqn:E; [|reflexivity].
  rewrite (has_close_unfold tl), E. reflexivity.
Qed.

Lemma has_close_drop (s : jsstring) : has_close (drop_spaces s) = has_close s.
Proof.
  induction s as [|x tl IH]; [reflexivity|].
  simpl drop_spaces. destruct (is_space x) eqn:E; [|reflexivity].
  rewrite IH. symmetry. now apply has_close_space.
Qed.

Lemma fence_tail_lazy (rest0 : jsstring) : fence_tail rest0 = lazy_close (drop_spaces rest0).
Proof.
  unfold fence_tail.
  rewrite (@star_greedy_ext _ is_space rest0 _ lazy_close).
  2:{ intros s. unfold lazy_close. apply star_lazy_ext. intros s'.
      unfold close_at. rewrite star_greedy_commit; [reflexivity|].
      intros x tl Hx. now rewrite space_not_backtick. }
  induction rest0 as [|x tl IH]; simpl; [reflexivity|].
  destruct (is_space x) eqn:E; [|reflexivity].
  rewrite IH. destruct (lazy_close (drop_spaces tl)) eqn:El; [reflexivity|].
  apply lazy_none. rewrite has_close_space by exact E.
  rewrite <- has_close_drop. now apply (lazy_none (drop_spaces tl)).
Qed.

Lemma drop_spaces_split (s : jsstring) :
  exists ws, s = ws ++ drop_spaces s /\ Forall (fun c => is_space c = true) ws.
Proof.
  induction s as [|x tl [ws [Hs Hws]]]; [exists []; auto|].
  simpl. destruct (is_space x) eqn:E.
  - exists (x :: ws). simpl. split; [now rewrite <- Hs | now constructor].
  - exists []. auto.
Qed.

Lemma drop_spaces_head (s : jsstring) (c : N) (t : jsstring) :
  drop_spaces s = c :: t -> is_space c = false.
Proof.
  induction s as [|x tl IH]; simpl; [discriminate|].
  destruct (is_space x) eqn:E; [exact IH|]. intros H. now injection H as <- _.
Qed.

(** [trim] removes a run of white space at either end, and nothing else. *)
Lemma trim_split (s : jsstring) :
  exists ws1 ws2,
    s = ws1 ++ trim s ++ ws2
    /\ Forall (fun c => is_space c = true) ws1
    /\ Forall (fun c => is_space c = true) ws2
    /\ (trim s <> [] ->
        (exists c t, trim s = c :: t /\ is_space c = false)
        /\ (exists t c, trim s = t ++ [c] /\ is_space c = false)).
Proof.
  destruct (drop_spaces_split s) as [ws1 [Hs H1]].
  destruct (drop_spaces_split (rev (drop_spaces s))) as [ws2 [Hr H2]].
  assert (Hd : drop_spaces s = trim s ++ rev ws2).
  { unfold trim. rewrite <- rev_app_distr, <- Hr. now rewrite rev_involutive. }
  exists ws1, (rev ws2). split; [now rewrite <- Hd|]. split; [exact H1|].
  split; [now apply Forall_rev|].
  intros Hne. split.
  - destruct (trim s) as [|c t] eqn:Et; [congruence|]. exists c, t. split; [reflexivity|].
    simpl in Hd. exact (drop_spaces_head _ Hd).
  - unfold trim in *. destruct (drop_spaces (rev (drop_spaces s))) as [|c e] eqn:Ee.
    + simpl in Hne. congruence.
    + exists (rev e), c. split; [reflexivity | exact (drop_spaces_head _ Ee)].
Qed.

Lemma drop_spaces_suffix (b rest : jsstring) :
  (exists t c, b = t ++ [c] /\ is_space c = false) ->
  exists a' b', b = a' ++ b' /\ b' <> [] /\ drop_spaces (b ++ rest) = b' ++ rest.
Proof.
  induction b as [|x bt IH]; intros [t [c [Hb Hc]]].
  - destruct t; discriminate.
  - destruct (is_space x) eqn:E.
    + destruct t as [|y t]; simpl in Hb.
      * injection Hb as -> _. congruence.
      * injection Hb as <- ->.
        destruct IH as [a' [b' [Hb' [Hne Hd]]]]; [exists t, c; auto|].
        exists (x :: a'), b'. simpl. rewrite E. rewrite Hb' at 1. auto.
    + exists [], (x :: bt). simpl. rewrite E. split; [reflexivity|]. split; [discriminate|].
      reflexivity.
Qed.

(** Before its first occurrence a pattern does not occur. *)
Lemma indexOf_first (p pre rest : jsstring) :
  indexOf p (pre ++ rest) = Some (length pre) ->
  forall a b, pre = a ++ b -> b <> [] -> strip_prefix p (b ++ rest) = None.
Proof.
  induction pre as [|x pre IH]; intros H a b Hab Hb.
  - destruct a, b; try discriminate. congruence.
  - assert (Hx : strip_prefix p ((x :: pre) ++ rest) = None
                 /\ indexOf p (pre ++ rest) = Some (length pre)).
    { simpl in H. simpl.
      destruct (strip_prefix p (x :: pre ++ rest)); [discriminate H|].
      destruct (indexOf p (pre ++ rest)); [|discriminate H].
      simpl in H. injection H as ->. auto. }
    destruct Hx as [Hx Hi]. destruct a as [|y a]; simpl in Hab.
    + subst b. exact Hx.
    + injection Hab as _ ->. exact (IH Hi a b eq_refl Hb).
Qed.

Lemma star_lazy_unfold (A : Type) (c : N -> bool) (s : jsstring) (k : jsstring -> option A) :
  star_lazy c s k
  = match k s with
    | Some r => Some r
    | None =>
        match s with
        | x :: tl => if c x then star_lazy c tl k else None
        | [] => None
        end
    end.
Proof. destruct s; reflexivity. Qed.

Lemma strip_backticks_spaces (ws rest : jsstring) :
  Forall (fun c => is_space c = true) ws ->
  strip_prefix BACKTICKS (drop_spaces (ws ++ BACKTICKS ++ rest)) = Some rest.
Proof.
  intros H. rewrite drop_spaces_spaces by exact H.
  change (BACKTICKS ++ rest) with (96%N :: ([96; 96]%N ++ rest)).
  rewrite drop_spaces_keeps by reflexivity. apply (strip_prefix_app BACKTICKS).
Qed.

(** The first alternative behind the opening fence: the group is the text
    up to the first closing fence, without white space at its ends. *)
Lemma fence_tail_value (inner rest : jsstring) :
  indexOf BACKTICKS (inner ++ BACKTICKS ++ rest) = Some (length inner) ->
  trim inner <> [] ->
  fence_tail (inner ++ BACKTICKS ++ rest)
  = Some (rest, set_capture 1 (trim inner) no_captures).
Proof.
  intros Hfirst Hne.
  destruct (trim_split inner) as [ws1 [ws2 [Hs [H1 [H2 Hends]]]]].
  destruct (Hends Hne) as [[c [t [Hhead Hc]]] Hlast]. clear Hends.
  set (body := trim inner) in *.
  set (tail := ws2 ++ BACKTICKS ++ rest).
  assert (Hd : drop_spaces (inner ++ BACKTICKS ++ rest) = body ++ tail).
  { rewrite Hs at 1. rewrite <- !app_assoc. rewrite drop_spaces_spaces by exact H1.
    rewrite Hhead. simpl. now rewrite Hc. }
  rewrite fence_tail_lazy, Hd. unfold lazy_close.
  rewrite star_lazy_skip.
  - rewrite star_lazy_unfold. unfold close_at at 1. unfold tail at 1.
    rewrite strip_backticks_spaces by exact H2.
    unfold tail. now rewrite consumed_app.
  - intros a b Hab Hb. unfold close_at.
    assert (Hlast' : exists t' c', b = t' ++ [c'] /\ is_space c' = false).
    { destruct Hlast as [t' [c' [Hl Hc']]].
      destruct (exists_last Hb) as [t'' [c'' Hb'']].
      exists t'', c''. split; [exact Hb''|].
      rewrite Hb'', Hl, app_assoc in Hab. apply app_inj_tail in Hab.
      destruct Hab as [_ ->]. exact Hc'. }
    destruct (drop_spaces_suffix tail Hlast') as [a' [b' [Hb' [Hne' Hdrop]]]].
    rewrite Hdrop. unfold tail. rewrite app_assoc.
    rewrite (@indexOf_first BACKTICKS inner (BACKTICKS ++ rest) Hfirst
               (ws1 ++ a ++ a') (b' ++ ws2)); [reflexivity| |].
    + rewrite Hs. fold body. rewrite Hab, Hb'. now rewrite <- !app_assoc.
    + destruct b'; [congruence | discriminate].
Qed.

Lemma has_close_occurs (s : jsstring) :
  has_close s = true -> exists b c, s = b ++ BACKTICKS ++ c.
Proof.
  induction s as [|x tl IH]; rewrite has_close_unfold.
  - destruct (strip_prefix BACKTICKS (drop_spaces [])) eqn:E; [|discriminate].
    simpl in E. discriminate E.
  - destruct (strip_prefix BACKTICKS (drop_spaces (x :: tl))) as [r|] eqn:E.
    + intros _. apply strip_prefix_Some in E.
      destruct (drop_spaces_split (x :: tl)) as [ws [Hs _]].
      exists ws, r. now rewrite <- E.
    + intros H. destruct (IH H) as [b [c ->]]. now exists (x :: b), c.
Qed.

Lemma fence_tail_occurs (rest0 : jsstring) (m : jsstring * captures) :
  fence_tail rest0 = Some m -> exists b c, rest0 = b ++ BACKTICKS ++ c.
Proof.
  rewrite fence_tail_lazy. intros H. apply has_close_occurs.
  rewrite <- has_close_drop. destruct (has_close (drop_spaces rest0)) eqn:E; [reflexivity|].
  apply (lazy_none (drop_spaces rest0)) in E. unfold lazy_close in H. congruence.
Qed.

Lemma fence_match_none (a inp : jsstring) :
  ~ has_fenced_block (a ++ inp) ->
  match strip_prefix FENCE inp with
  | Some rest0 => fence_tail rest0
  | None => None
  end = None.
Proof.
  intros Hno. destruct (strip_prefix FENCE inp) as [rest0|] eqn:E; [|reflexivity].
  destruct (fence_tail rest0) as [m|] eqn:Em; [|reflexivity].
  exfalso. apply Hno. apply strip_prefix_Some in E.
  destruct (@fence_tail_occurs _ _ Em) as [b [c ->]]. exists a, b, c. now rewrite E.
Qed.

Lemma greedy_brace_occurs (whole rest0 : jsstring) (m : jsstring * captures) :
  star_greedy any_char rest0
    (fun rest1 =>
       match strip_prefix [RBRACE] rest1 with
       | Some rest => Some (rest, set_capture 2 (consumed whole rest) no_captures)
       | None => None
       end) = Some m ->
  exists b c, rest0 = b ++ [RBRACE] ++ c.
Proof.
  revert m. induction rest0 as [|x tl IH]; intros m; cbn [star_greedy any_char].
  - cbn [strip_prefix]. discriminate.
  - destruct (star_greedy any_char tl _) eqn:Eg.
    + intros _. destruct (IH p eq_refl) as [b [c ->]]. now exists (x :: b), c.
    + destruct (strip_prefix [RBRACE] (x :: tl)) as [t|] eqn:Es; [|discriminate].
      apply strip_prefix_Some in Es. intros _. now exists [], t.
Qed.

Lemma brace_match_occurs (inp : jsstring) (m : jsstring * captures) :
  brace_match inp = Some m -> exists b c, inp = [LBRACE] ++ b ++ [RBRACE] ++ c.
Proof.
  unfold brace_match. destruct (strip_prefix [LBRACE] inp) as [rest0|] eqn:E; [|discriminate].
  apply strip_prefix_Some in E. intros H.
  destruct (@greedy_brace_occurs _ _ _ H) as [b [c ->]]. now exists b, c.
Qed.

Lemma brace_match_head (x : N) (tl : jsstring) :
  x <> LBRACE -> brace_match (x :: tl) = None.
Proof.
  intros H. unfold brace_match. cbn [strip_prefix].
  destruct (LBRACE =? x)%N eqn:E; [|reflexivity].
  apply N.eqb_eq in E. congruence.
Qed.

(** The second alternative: from the brace at hand to the last closing
    brace of the text. *)
Lemma greedy_no_brace (B : Type) (rest : jsstring) (k : jsstring -> option B) :
  ~ In RBRACE rest ->
  (forall s, strip_prefix [RBRACE] s = None -> k s = None) ->
  star_greedy any_char rest k = None.
Proof.
  intros Hno Hk. induction rest as [|x tl IH]; cbn [star_greedy any_char].
  - apply Hk. reflexivity.
  - rewrite IH by (intros Hin; apply Hno; right; exact Hin). apply Hk. cbn [strip_prefix].
    destruct (RBRACE =? x)%N eqn:E; [|reflexivity].
    apply N.eqb_eq in E. exfalso. apply Hno. left. symmetry. exact E.
Qed.

Lemma brace_match_value (mid rest : jsstring) :
  ~ In RBRACE rest ->
  brace_match ([LBRACE] ++ mid ++ [RBRACE] ++ rest)
  = Some (rest, set_capture 2 ([LBRACE] ++ mid ++ [RBRACE]) no_captures).
Proof.
  intros Hno. unfold brace_match. rewrite strip_prefix_app.
  apply star_greedy_last. change ([RBRACE] ++ rest) with (RBRACE :: rest).
  cbn [star_greedy any_char]. rewrite greedy_no_brace.
  - change (RBRACE :: rest) with ([RBRACE] ++ rest). rewrite strip_prefix_app.
    replace ([LBRACE] ++ mid ++ [RBRACE] ++ rest)
      with (([LBRACE] ++ mid ++ [RBRACE]) ++ rest)
      by (rewrite <- !app_assoc; reflexivity).
    now rewrite consumed_app.
  - exact Hno.
  - intros s Hs. now rewrite Hs.
Qed.

Section Exec.
Variable r : regex.

Lemma exec_unfold (inp : jsstring) :
  exec r inp
  = match match_here r inp with
    | Some (_, caps) => Some caps
    | None => match inp with [] => None | _ :: tl => exec r tl end
    end.
Proof. destruct inp; reflexivity. Qed.

(** [exec] passes over a prefix at no position of which the pattern
    matches. *)
Lemma exec_skip (pre rest : jsstring) :
  (forall a b, pre = a ++ b -> b <> [] -> match_here r (b ++ rest) = None) ->
  exec r (pre ++ rest) = exec r rest.
Proof.
  induction pre as [|x pre IH]; intros H; [reflexivity|].
  rewrite exec_unfold.
  rewrite (H [] (x :: pre) eq_refl ltac:(discriminate)). simpl.
  apply IH. intros a b -> Hb. exact (H (x :: a) b eq_refl Hb).
Qed.

Lemma exec_none (text : jsstring) :
  (forall a b, text = a ++ b -> match_here r b = None) -> exec r text = None.
Proof.
  induction text as [|x tl IH]; intros H; rewrite exec_unfold.
  - now rewrite (H [] [] eq_refl).
  - rewrite (H [] (x :: tl) eq_refl). apply IH.
    intros a b ->. exact (H (x :: a) b eq_refl).
Qed.
End Exec.

(** A fenced block in front of which no brace opens: its trimmed contents
    are the candidate. *)
Lemma candidate_fenced (pre inner rest : jsstring) :
  ~ In LBRACE pre ->
  indexOf FENCE (pre ++ FENCE ++ inner ++ BACKTICKS ++ rest) = Some (length pre) ->
  indexOf BACKTICKS (inner ++ BACKTICKS ++ rest) = Some (length inner) ->
  trim inner <> [] ->
  jsonCandidate (pre ++ FENCE ++ inner ++ BACKTICKS ++ rest) = Some (trim inner).
Proof.
  intros Hpre Hopen Hclose Hne. unfold jsonCandidate.
  rewrite exec_skip.
  - rewrite exec_unfold, match_here_jsonRegex, strip_prefix_app.
    rewrite (@fence_tail_value _ _ Hclose Hne).
    unfold pick_group, set_capture. simpl.
    destruct (trim inner); [congruence | reflexivity].
  - intros a b Hab Hb. rewrite match_here_jsonRegex.
    rewrite (@indexOf_first _ _ _ Hopen a b Hab Hb).
    destruct b as [|y b]; [congruence|]. apply brace_match_head.
    intros ->. apply Hpre. rewrite Hab. apply in_or_app. right. now left.
Qed.

(** No fenced block: the candidate runs from the first opening brace to
    the last closing brace. *)
Lemma candidate_braces (pre mid rest : jsstring) :
  ~ has_fenced_block (pre ++ [LBRACE] ++ mid ++ [RBRACE] ++ rest) ->
  ~ In LBRACE pre ->
  ~ In RBRACE rest ->
  jsonCandidate (pre ++ [LBRACE] ++ mid ++ [RBRACE] ++ rest)
  = Some ([LBRACE] ++ mid ++ [RBRACE]).
Proof.
  intros Hno Hpre Hrest. unfold jsonCandidate.
  rewrite exec_skip.
  - rewrite exec_unfold, match_here_jsonRegex.
    rewrite (@fence_match_none pre _ Hno), (@brace_match_value mid rest Hrest).
    reflexivity.
  - intros a b Hab Hb. rewrite match_here_jsonRegex.
    rewrite (@fence_match_none a (b ++ _)).
    + destruct b as [|y b]; [congruence|]. apply brace_match_head.
      intros ->. apply Hpre. rewrite Hab. apply in_or_app. right. now left.
    + rewrite app_assoc, <- Hab. exact Hno.
Qed.

(** Neither a fenced block nor a pair of braces: no candidate. *)
Lemma candidate_none (text : jsstring) :
  ~ has_fenced_block text -> ~ has_brace_pair text -> jsonCandidate text = None.
Proof.
  intros Hf Hb. unfold jsonCandidate. rewrite exec_none; [reflexivity|].
  intros a b ->. rewrite match_here_jsonRegex, (@fence_match_none a b Hf).
  destruct (brace_match b) as [m|] eqn:E; [|reflexivity].
  exfalso. apply Hb. destruct (@brace_match_occurs _ _ E) as [b' [c ->]]. now exists a, b', c.
Qed.

(* ================================================================== *)
(** ** extractJsonFromText: the trailing-comma repair *)
(* ================================================================== *)


Lemma match_here_trailingComma (inp : jsstring) :
  match_here trailingCommaRegex inp
  = match strip_prefix [COMMA] inp with
    | Some rest0 => closer_at (drop_spaces rest0)
    | None => None
    end.
Proof.
  unfold match_here, trailingCommaRegex. cbn [rmatch].
  destruct (strip_prefix [COMMA] inp) as [rest0|]; [|reflexivity].
  rewrite (@star_greedy_ext _ is_space rest0 _ closer_at) by (intros []; reflexivity).
  apply star_greedy_commit. intros x tl Hx. unfold closer_at.
  destruct (is_closer x) eqn:E; [|reflexivity].
  unfold is_closer in E. apply orb_true_iff in E.
  destruct E as [E|E]; apply N.eqb_eq in E; subst x; discriminate Hx.
Qed.

Lemma replace_from_skip (r : regex) (n : nat) (a b : jsstring) :
  replace_from r n (a ++ b) (length a) = replace_from r n b 0.
Proof.
  induction a as [|x a IH]; [reflexivity|]. simpl. exact IH.
Qed.

Lemma replace_from_unfold (r : regex) (n : nat) (x : N) (tl : jsstring) :
  replace_from r n (x :: tl) 0
  = match match_here r (x :: tl) with
    | Some (rest, caps) =>
        match length (x :: tl) - length rest with
        | O => x :: replace_from r n tl 0
        | S m => match caps n with Some g => g | None => [] end ++ replace_from r n tl m
        end
    | None => x :: replace_from r n tl 0
    end.
Proof. reflexivity. Qed.

(** A character other than a comma is copied. *)
Lemma sanitize_other (x : N) (rest : jsstring) :
  x <> COMMA -> sanitize (x :: rest) = x :: sanitize rest.
Proof.
  intros H. unfold sanitize, replace_all.
  rewrite replace_from_unfold, match_here_trailingComma. cbn [strip_prefix].
  destruct (COMMA =? x)%N eqn:E; [|reflexivity].
  apply N.eqb_eq in E. congruence.
Qed.

(** A comma, optional white space and a closing brace or bracket: only the
    closing character is left. *)
Lemma sanitize_trailing_comma (ws : jsstring) (c : N) (rest : jsstring) :
  Forall (fun x => is_space x = true) ws -> is_closer c = true ->
  sanitize ([COMMA] ++ ws ++ [c] ++ rest) = c :: sanitize rest.
Proof.
  intros Hws Hc. unfold sanitize, replace_all.
  change ([COMMA] ++ ws ++ [c] ++ rest) with (COMMA :: (ws ++ c :: rest)).
  rewrite replace_from_unfold, match_here_trailingComma.
  change (COMMA :: ws ++ c :: rest) with ([COMMA] ++ (ws ++ c :: rest)).
  rewrite strip_prefix_app, drop_spaces_spaces by exact Hws.
  assert (Hns : is_space c = false).
  { unfold is_closer in Hc. apply orb_true_iff in Hc.
    destruct Hc as [E|E]; apply N.eqb_eq in E; subst c; reflexivity. }
  rewrite drop_spaces_keeps by exact Hns. unfold closer_at. rewrite Hc.
  replace (length ([COMMA] ++ ws ++ c :: rest) - length rest)
    with (S (length (ws ++ [c])))
    by (rewrite !length_app; cbn [length]; lia).
  unfold set_capture. cbn [Nat.eqb].
  change (c :: rest) with ([c] ++ rest). rewrite consumed_app.
  rewrite (app_assoc ws [c] rest), replace_from_skip. reflexivity.
Qed.

(** A comma that is not followed, behind optional white space, by a
    closing brace or bracket is copied. *)
Lemma sanitize_inner_comma (rest : jsstring) :
  (forall c t, drop_spaces rest = c :: t -> is_closer c = false) ->
  sanitize (COMMA :: rest) = COMMA :: sanitize rest.
Proof.
  intros H. unfold sanitize, replace_all.
  rewrite replace_from_unfold, match_here_trailingComma.
  change (COMMA :: rest) with ([COMMA] ++ rest). rewrite strip_prefix_app.
  unfold closer_at. destruct (drop_spaces rest) as [|c t] eqn:E; [reflexivity|].
  now rewrite (H c t eq_refl).
Qed.

(* ================================================================== *)
(** ** extractJsonFromText: the algorithm *)
(* ================================================================== *)

(** A brace pair in front of a fenced block, and two objects in a row: the
    candidate runs from the first opening brace to the last closing brace,
    so neither the fenced contents nor the first object is what is parsed. *)
Lemma extraction_takes_widest_braces :
  (jsonCandidate (jq "{'note': 0} ```json {'similarity': 1}```")
   = Some (jq "{'note': 0} ```json {'similarity': 1}")
   /\ extractJsonFromText json_parse (jq "{'note': 0} ```json {'similarity': 1}```")
      = inr MalformedJson
   /\ json_parse (jq "{'similarity': 1}") = Some (JObj [(js "similarity", JNum 1)]))
  /\ (jsonCandidate (jq "{'a': 1} {'b': 2}") = Some (jq "{'a': 1} {'b': 2}")
      /\ extractJsonFromText json_parse (jq "{'a': 1} {'b': 2}") = inr MalformedJson
      /\ json_parse (jq "{'a': 1}") = Some (JObj [(js "a", JNum 1)])).
Proof. repeat split; vm_compute; reflexivity. Qed.

(** C1, as the code has it.  (1) A fenced [```json] block in front of which
    no opening brace occurs: its contents up to the first closing backticks,
    trimmed, are parsed.  (2) No fenced block: the text from the first
    opening brace to the last closing brace is parsed.  (3) Neither a fenced
    block nor a brace pair: the non-JSON-response error.  (4) What is parsed
    is the candidate after the repair, and a parse failure gives the
    malformed-JSON error, which is another error.  (5) The repair drops each
    comma that is followed, behind optional white space, by a closing brace
    or bracket, and copies every other character. *)
Theorem extraction_as_coded (JSON_parse : jsstring -> option JsValue) :
  (forall pre inner rest,
      ~ In LBRACE pre ->
      indexOf FENCE (pre ++ FENCE ++ inner ++ BACKTICKS ++ rest) = Some (length pre) ->
      indexOf BACKTICKS (inner ++ BACKTICKS ++ rest) = Some (length inner) ->
      trim inner <> [] ->
      extractJsonFromText JSON_parse (pre ++ FENCE ++ inner ++ BACKTICKS ++ rest)
      = parse_sanitized JSON_parse (trim inner))
  /\ (forall pre mid rest,
         ~ has_fenced_block (pre ++ [LBRACE] ++ mid ++ [RBRACE] ++ rest) ->
         ~ In LBRACE pre ->
         ~ In RBRACE rest ->
         extractJsonFromText JSON_parse (pre ++ [LBRACE] ++ mid ++ [RBRACE] ++ rest)
         = parse_sanitized JSON_parse ([LBRACE] ++ mid ++ [RBRACE]))
  /\ (forall text,
         ~ has_fenced_block text -> ~ has_brace_pair text ->
         extractJsonFromText JSON_parse text = inr NonJsonResponse)
  /\ (forall jsonString,
         parse_sanitized JSON_parse jsonString
         = match JSON_parse (sanitize jsonString) with
           | Some v => inl v
           | None => inr MalformedJson
           end)
  /\ MalformedJson <> NonJsonResponse
  /\ (forall x rest, x <> COMMA -> sanitize (x :: rest) = x :: sanitize rest)
  /\ (forall ws c rest,
         Forall (fun x => is_space x = true) ws -> is_closer c = true ->
         sanitize ([COMMA] ++ ws ++ [c] ++ rest) = c :: sanitize rest)
  /\ (forall rest,
         (forall c t, drop_spaces rest = c :: t -> is_closer c = false) ->
         sanitize (COMMA :: rest) = COMMA :: sanitize rest).
Proof.
  split.
  { intros pre inner rest H1 H2 H3 H4. unfold extractJsonFromText.
    now rewrite (@candidate_fenced pre inner rest H1 H2 H3 H4). }
  split.
  { intros pre mid rest H1 H2 H3. unfold extractJsonFromText.
    now rewrite (@candidate_braces pre mid rest H1 H2 H3). }
  split.
  { intros text H1 H2. unfold extractJsonFromText.
    now rewrite (@candidate_none text H1 H2). }
  split; [reflexivity|].
  split; [discriminate|].
  split; [exact sanitize_other|].
  split; [exact sanitize_trailing_comma | exact sanitize_inner_comma].
Qed.


Lemma extraction_as_coded_witness :
  extractJsonFromText json_parse
    (js "Here you go: " ++ FENCE ++ fenced_sample_inner ++ BACKTICKS ++ js " Bye.")
  = inl (JObj [(js "similarity", JNum 42); (js "matched_sentences", JArr [JStr (js "a")])])
  /\ extractJsonFromText json_parse
       (js "Result: " ++ [LBRACE] ++ jq "'similarity': 10, 'matched_sentences': ['x',]"
           ++ [RBRACE] ++ js " (done)")
     = inl (JObj [(js "similarity", JNum 10); (js "matched_sentences", JArr [JStr (js "x")])])
  /\ extractJsonFromText json_parse (js "I could not find anything.") = inr NonJsonResponse.
Proof.
  destruct (extraction_as_coded json_parse) as [Hfence [Hbrace [Hnone _]]].
  assert (Hticks : forall text : jsstring, ~ In 96%N text -> ~ has_fenced_block text).
  { intros text Hno [a [b [c H]]]. apply Hno. rewrite H.
    apply in_or_app. right. left. reflexivity. }
  split; [|split].
  - rewrite Hfence.
    + vm_compute. reflexivity.
    + vm_compute. intuition discriminate.
    + vm_compute. reflexivity.
    + vm_compute. reflexivity.
    + vm_compute. discriminate.
  - rewrite Hbrace.
    + vm_compute. reflexivity.
    + apply Hticks. vm_compute. intuition discriminate.
    + vm_compute. intuition discriminate.
    + vm_compute. intuition discriminate.
  - apply Hnone.
    + apply Hticks. vm_compute. intuition discriminate.
    + intros [a [b [c H]]].
      assert (Hin : In LBRACE (js "I could not find anything.")).
      { rewrite H. apply in_or_app. right. left. reflexivity. }
      vm_compute in Hin. intuition discriminate.
Defined.

(* ================================================================== *)
(** ** Text extraction and the online work item *)
(* ================================================================== *)

Lemma trim_empty_length (t : jsstring) : (length (trim t) =? 0) = true <-> trim t = [].
Proof.
  rewrite Nat.eqb_eq. destruct (trim t); simpl; split; intros H; congruence.
Qed.

Lemma trim_nil : trim [] = [].
Proof. reflexivity. Qed.

Lemma extract_resolved (generateContent : Request -> Reply) (doc : DocumentContent)
      (t : jsstring) :
  outcome (extractTextFromDoc generateContent doc) = Resolved t ->
  exists response,
    generateContent (ExtractTextRequest doc) = Responds response
    /\ text response = Some t /\ trim t <> [].
Proof.
  unfold extractTextFromDoc, outcome. simpl.
  destruct (generateContent (ExtractTextRequest doc)) as [response|m]; [|discriminate].
  destruct (text response) as [t'|] eqn:Et; [|discriminate].
  destruct (negb (truthy_string t') || (length (trim t') =? 0)) eqn:E; [discriminate|].
  apply orb_false_iff in E. destruct E as [_ E].
  intros H. injection H as ->. exists response. repeat split; auto.
  intros Hn. apply trim_empty_length in Hn. congruence.
Qed.

(** X1.  [extractTextFromDoc] resolves exactly when the provider responds
    with a text that is not blank, and then with that text; otherwise it
    throws an error that names the file.  It issues one request. *)
Theorem extractTextFromDoc_resolves_iff
        (generateContent : Request -> Reply) (doc : DocumentContent) :
  (forall t,
      outcome (extractTextFromDoc generateContent doc) = Resolved t
      <-> exists response,
            generateContent (ExtractTextRequest doc) = Responds response
            /\ text response = Some t /\ trim t <> [])
  /\ (forall e,
         outcome (extractTextFromDoc generateContent doc) = Thrown e ->
         exists m, e = extractErrorMessage doc m)
  /\ call_log (extractTextFromDoc generateContent doc) = [ExtractTextRequest doc].
Proof.
  split; [|split; [|reflexivity]].
  - intros t. split; [apply extract_resolved|].
    intros [response [Hr [Ht Hne]]]. unfold extractTextFromDoc, outcome. simpl.
    rewrite Hr, Ht.
    assert (Hb : negb (truthy_string t) || (length (trim t) =? 0) = false).
    { apply orb_false_iff. split.
      - destruct t; [now rewrite trim_nil in Hne | reflexivity].
      - destruct (length (trim t) =? 0) eqn:E; [|reflexivity].
        apply trim_empty_length in E. contradiction. }
    now rewrite Hb.
  - intros e. unfold extractTextFromDoc, outcome. simpl.
    destruct (generateContent (ExtractTextRequest doc)) as [response|m].
    + destruct (text response) as [t'|].
      * destruct (negb (truthy_string t') || (length (trim t') =? 0)); [|discriminate].
        intros H. injection H as <-. eauto.
      * intros H. injection H as <-. eauto.
    + intros H. injection H as <-. eauto.
Qed.

(** X2.  The online work item asks for the analysis only after the
    extraction has resolved, and sends exactly the extracted text, which is
    not blank; when the extraction throws, its error is the outcome and no
    analysis is requested. *)
Theorem online_analysis_follows_extraction
        (JSON_parse : jsstring -> option JsValue)
        (generateContent : Request -> Reply) (doc : DocumentContent) :
  (forall t,
      In (OnlineRequest t) (call_log (onlineWork JSON_parse generateContent doc)) ->
      outcome (extractTextFromDoc generateContent doc) = Resolved t /\ trim t <> [])
  /\ (forall e,
         outcome (extractTextFromDoc generateContent doc) = Thrown e ->
         onlineWork JSON_parse generateContent doc = ([ExtractTextRequest doc], Thrown e))
  /\ (forall t,
         outcome (extractTextFromDoc generateContent doc) = Resolved t ->
         call_log (onlineWork JSON_parse generateContent doc)
         = [ExtractTextRequest doc; OnlineRequest t]).
Proof.
  pose proof (extract_resolved generateContent doc) as Hres.
  assert (Hlog : call_log (extractTextFromDoc generateContent doc) = [ExtractTextRequest doc])
    by reflexivity.
  unfold onlineWork, bind.
  destruct (extractTextFromDoc generateContent doc) as [log o] eqn:Ex.
  unfold call_log, outcome in *. simpl in *. subst log.
  split; [|split].
  - intros t Hin. destruct o as [t'|e].
    + unfold analyzeContentOnline in Hin. simpl in Hin.
      destruct Hin as [Hin|[Hin|[]]]; [discriminate|]. injection Hin as ->.
      split; [reflexivity|]. destruct (Hres t eq_refl) as [r [_ [_ Hne]]]. exact Hne.
    + simpl in Hin. destruct Hin as [Hin|[]]. discriminate.
  - intros e ->. reflexivity.
  - intros t ->. reflexivity.
Qed.

(* ================================================================== *)
(** ** Promise.all: the first rejection, and pending runs *)
(* ================================================================== *)

Section PromiseAllMore.
Variable A : Type.
Variable outcomes : list (Outcome A).

Lemma settle_settled (st : PromiseState A) (schedule : list nat) :
  (forall slots, st <> Pending slots) ->
  fold_left (settle outcomes) schedule st = st.
Proof.
  intros H. induction schedule as [|i schedule IH]; [reflexivity|]. simpl.
  destruct st as [slots|values|e]; [now destruct (H slots) | exact IH | exact IH].
Qed.

Lemma Promise_all_app (s1 s2 : list nat) :
  outcomes <> [] ->
  Promise_all outcomes (s1 ++ s2)
  = fold_left (settle outcomes) s2 (Promise_all outcomes s1).
Proof.
  intros H. unfold Promise_all. destruct outcomes; [congruence|].
  apply fold_left_app.
Qed.

(** The first rejected promise to settle decides the result. *)
Lemma Promise_all_first_rejection (before after : list nat) (k : nat) (e : jsstring) :
  nth_error outcomes k = Some (Thrown e) ->
  no_rejection outcomes before ->
  Promise_all outcomes (before ++ k :: after) = Rejected e.
Proof.
  intros Hk Hno.
  assert (Hne : outcomes <> []) by (intros E; rewrite E in Hk; destruct k; discriminate).
  rewrite Promise_all_app by exact Hne. simpl.
  pose proof (Promise_all_inv outcomes before) as Hinv.
  destruct (Promise_all outcomes before) as [slots|values|e'] eqn:E; simpl in *.
  - rewrite Hk. apply settle_settled. discriminate.
  - exfalso. rewrite Hinv, nth_error_map in Hk.
    destruct (nth_error values k); discriminate.
  - exfalso. destruct Hinv as [k' [Hin Hk']]. exact (Hno k' e' Hin Hk').
Qed.

Lemma set_slot_other (slots : list (option A)) (i j : nat) (v w : A) :
  nth_error (set_slot slots i v) j = Some (Some w) ->
  j = i \/ nth_error slots j = Some (Some w).
Proof.
  revert i j. induction slots as [|s slots IH]; intros i j H.
  - destruct i, j; discriminate.
  - destruct i, j; simpl in *; auto.
    destruct (IH _ _ H) as [->|H']; auto.
Qed.

Lemma set_slot_length (slots : list (option A)) (i : nat) (v : A) :
  length (set_slot slots i v) = length slots.
Proof.
  revert i. induction slots as [|s slots IH]; intros [|i]; simpl; auto.
Qed.

Lemma all_values_all_filled (slots : list (option A)) (values : list A) :
  all_values slots = Some values ->
  forall j, j < length slots -> exists w, nth_error slots j = Some (Some w).
Proof.
  revert values. induction slots as [|s slots IH]; intros values H j Hj; simpl in *; [lia|].
  destruct s as [v|]; [|discriminate].
  destruct (all_values slots) as [vs|] eqn:E; [|discriminate].
  destruct j; simpl; [eauto|]. apply (IH vs eq_refl). lia.
Qed.

Lemma settle_filled (settled : list nat) (st : PromiseState A) (i : nat) :
  filled_inv outcomes settled st ->
  filled_inv outcomes (settled ++ [i]) (settle outcomes st i).
Proof.
  destruct st as [slots|values|e]; simpl; [|intros H j Hj; apply in_or_app; auto|auto].
  intros [Hlen Hfill].
  destruct (nth_error outcomes i) as [[v|e]|] eqn:Ei; simpl; [| exact I |].
  - assert (Hfill' : forall j w, nth_error (set_slot slots i v) j = Some (Some w) ->
                                 In j (settled ++ [i])).
    { intros j w Hj. apply in_or_app. destruct (@set_slot_other slots i j v w Hj) as [->|Hj'].
      - right. now left.
      - left. eauto. }
    destruct (all_values (set_slot slots i v)) as [values|] eqn:Ev; simpl.
    + intros j Hj.
      destruct (@all_values_all_filled _ _ Ev j) as [w Hw].
      * rewrite set_slot_length, Hlen. exact Hj.
      * eauto.
    + split; [now rewrite set_slot_length | exact Hfill'].
  - split; [exact Hlen|]. intros j w Hj. apply in_or_app. left. eauto.
Qed.

Lemma Promise_all_filled (schedule : list nat) :
  filled_inv outcomes schedule (Promise_all outcomes schedule).
Proof.
  unfold Promise_all. destruct outcomes as [|o os] eqn:E; [intros i Hi; simpl in Hi; lia|].
  rewrite <- E.
  assert (H : forall settled st,
             filled_inv outcomes settled st ->
             filled_inv outcomes (settled ++ schedule)
                        (fold_left (settle outcomes) schedule st)).
  { induction schedule as [|i sch IH]; intros settled st Hst; simpl.
    - now rewrite app_nil_r.
    - replace (settled ++ i :: sch) with ((settled ++ [i]) ++ sch)
        by (rewrite <- app_assoc; reflexivity).
      apply IH, settle_filled, Hst. }
  apply (H [] (Pending (map (fun _ => None) outcomes))). simpl.
  split; [apply length_map|].
  intros i v Hi. exfalso. clear - Hi. revert i Hi.
  induction outcomes as [|o os IH]; intros [|i] Hi; simpl in Hi; try discriminate. eauto.
Qed.

(** While a promise has not settled and none has been rejected, the
    result is pending. *)
Lemma Promise_all_pending (schedule : list nat) (i : nat) :
  no_rejection outcomes schedule ->
  i < length outcomes -> ~ In i schedule ->
  exists slots, Promise_all outcomes schedule = Pending slots.
Proof.
  intros Hno Hi Hnot.
  pose proof (Promise_all_filled schedule) as Hf.
  pose proof (Promise_all_inv outcomes schedule) as Hinv.
  destruct (Promise_all outcomes schedule) as [slots|values|e]; simpl in *.
  - eauto.
  - exfalso. exact (Hnot (Hf i Hi)).
  - exfalso. destruct Hinv as [k [Hk Ek]]. exact (Hno k e Hk Ek).
Qed.
End PromiseAllMore.

(* ================================================================== *)
(** ** checkPlagiarism: counts, first failure, pending runs *)
(* ================================================================== *)

Lemma generatePairs_length (documents : list DocumentContent) :
  length (generatePairs documents) = length documents * (length documents - 1) / 2.
Proof.
  rewrite <- (Forall2_length (generatePairs_lookup documents)), pairIndices_rows.
  pose proof (@rows_from_length (length documents) 0 (length documents) eq_refl) as H.
  rewrite <- H, Nat.mul_comm, Nat.div_mul; lia.
Qed.

Section RunCounts.
Variable JSON_parse : jsstring -> option JsValue.
Variable provider : nat -> Request -> Reply.

Lemma start_all_items (I A : Type) (work : (Request -> Reply) -> I -> Async A)
      (items : list I) :
  length (start_all provider work items) = length items.
Proof.
  unfold start_all. rewrite length_map, length_combine, length_seq. apply Nat.min_id.
Qed.

Lemma start_all_Forall (I A : Type) (work : (Request -> Reply) -> I -> Async A)
      (items : list I) (P : Async A -> Prop) :
  (forall g item, P (work g item)) -> Forall P (start_all provider work items).
Proof.
  intros H. unfold start_all. apply Forall_forall. intros t Ht.
  apply in_map_iff in Ht. destruct Ht as [[k item] [<- _]]. apply H.
Qed.

Lemma concat_logs_bounds (A : Type) (tasks : list (Async A)) (lo hi : nat) :
  Forall (fun t => lo <= length (call_log t) <= hi) tasks ->
  lo * length tasks <= length (concat (map (@call_log A) tasks)) <= hi * length tasks.
Proof.
  induction 1 as [|t tasks Ht _ IH]; simpl; [lia|].
  rewrite length_app. lia.
Qed.

Lemma analysisPromises_length (documents : list DocumentContent) (isOnlineCheck : bool) :
  length (analysisPromises JSON_parse provider documents isOnlineCheck)
  = if isOnlineCheck then length documents
    else length documents * (length documents - 1) / 2.
Proof.
  unfold analysisPromises. destruct isOnlineCheck; rewrite start_all_items.
  - reflexivity.
  - apply generatePairs_length.
Qed.

Lemma onlineWork_log_bounds (g : Request -> Reply) (doc : DocumentContent) :
  1 <= length (call_log (onlineWork JSON_parse g doc)) <= 2.
Proof.
  unfold onlineWork, bind, extractTextFromDoc, analyzeContentOnline, call_log.
  destruct (g (ExtractTextRequest doc)) as [response|m]; simpl; [|lia].
  destruct (text response) as [t|]; simpl; [|lia].
  destruct (negb (truthy_string t) || (length (trim t) =? 0)); simpl; lia.
Qed.
End RunCounts.

(** X3.  A pairwise run over [N] documents issues exactly [N*(N-1)/2]
    provider requests, an online run between [N] and [2*N]; a run that
    fulfils returns [N*(N-1)/2] results in pairwise mode and [N] results in
    online mode. *)
Theorem run_counts
        (JSON_parse : jsstring -> option JsValue) (provider : nat -> Request -> Reply)
        (schedule : list nat) (documents : list DocumentContent) :
  let N := length documents in
  length (requests (checkPlagiarism JSON_parse provider schedule documents false))
  = N * (N - 1) / 2
  /\ N <= length (requests (checkPlagiarism JSON_parse provider schedule documents true))
     <= 2 * N
  /\ (forall values,
         result (checkPlagiarism JSON_parse provider schedule documents false)
         = Fulfilled values ->
         length values = N * (N - 1) / 2)
  /\ (forall values,
         result (checkPlagiarism JSON_parse provider schedule documents true)
         = Fulfilled values ->
         length values = N).
Proof.
  intros N. rewrite !checkPlagiarism_await. unfold await_all. cbn [requests result].
  pose proof (analysisPromises_length JSON_parse provider documents false) as Hp.
  pose proof (analysisPromises_length JSON_parse provider documents true) as Ho.
  cbv beta iota in Hp, Ho. fold N in Hp, Ho. revert Hp. generalize (N * (N - 1) / 2) as M.
  intros M Hp.
  assert (Hlen : forall b values,
             Promise_all (map (@outcome _) (analysisPromises JSON_parse provider documents b))
                         schedule = Fulfilled values ->
             length values = length (analysisPromises JSON_parse provider documents b)).
  { intros b values H. apply Promise_all_fulfilled in H.
    rewrite <- (length_map (@outcome _)), H, length_map. reflexivity. }
  split; [|split; [|split]].
  - pose proof (@concat_logs_bounds _ (analysisPromises JSON_parse provider documents false) 1 1)
      as H.
    rewrite Hp in H.
    enough (1 * M <= length
      (concat (map (@call_log _) (analysisPromises JSON_parse provider documents false)))
      <= 1 * M) by lia.
    apply H. unfold analysisPromises. apply start_all_Forall.
    intros g p. unfold pairWork, analyzePair, call_log. simpl. lia.
  - pose proof (@concat_logs_bounds _ (analysisPromises JSON_parse provider documents true) 1 2)
      as H.
    rewrite Ho in H.
    enough (1 * N <= length
      (concat (map (@call_log _) (analysisPromises JSON_parse provider documents true)))
      <= 2 * N) by lia.
    apply H. unfold analysisPromises. apply start_all_Forall.
    intros g doc. apply onlineWork_log_bounds.
  - intros values H. now rewrite (Hlen false values H).
  - intros values H. now rewrite (Hlen true values H).
Qed.

(** X4.  The run is rejected with the error of the first failed work item
    to settle: if the work items settling before item [k] all resolved and
    item [k] threw [e], the run is rejected with [e], whatever settles
    later. *)
Theorem first_failure_is_reported
        (JSON_parse : jsstring -> option JsValue) (provider : nat -> Request -> Reply)
        (documents : list DocumentContent) (isOnlineCheck : bool)
        (before after : list nat) (k : nat) (e : jsstring) :
  let outcomes :=
    map (@outcome _) (analysisPromises JSON_parse provider documents isOnlineCheck) in
  nth_error outcomes k = Some (Thrown e) ->
  no_rejection outcomes before ->
  result (checkPlagiarism JSON_parse provider (before ++ k :: after)
                          documents isOnlineCheck)
  = Rejected e.
Proof.
  intros outcomes Hk Hno. rewrite checkPlagiarism_await. simpl.
  now apply Promise_all_first_rejection.
Qed.

Lemma first_failure_is_reported_witness :
  result (checkPlagiarism json_parse flaky_provider [0; 2; 1] three_documents false)
  = Rejected (pairErrorMessage (document "b.txt") (document "c.txt")).
Proof.
  apply (@first_failure_is_reported json_parse flaky_provider three_documents false
           [0] [1] 2 (pairErrorMessage (document "b.txt") (document "c.txt"))).
  - vm_compute. reflexivity.
  - intros i e [<-|[]]. vm_compute. discriminate.
Defined.

(** X5.  A run in which no settled work item has failed stays pending
    until every work item has settled: no result list is returned early. *)
Theorem run_pending_until_all_settle
        (JSON_parse : jsstring -> option JsValue) (provider : nat -> Request -> Reply)
        (schedule : list nat) (documents : list DocumentContent) (isOnlineCheck : bool)
        (i : nat) :
  let outcomes :=
    map (@outcome _) (analysisPromises JSON_parse provider documents isOnlineCheck) in
  no_rejection outcomes schedule ->
  i < length outcomes ->
  ~ In i schedule ->
  exists slots,
    result (checkPlagiarism JSON_parse provider schedule documents isOnlineCheck)
    = Pending slots.
Proof.
  intros outcomes Hno Hi Hnot. rewrite checkPlagiarism_await. simpl.
  now apply (@Promise_all_pending _ outcomes schedule i).
Qed.

Lemma run_pending_until_all_settle_witness :
  exists slots,
    result (checkPlagiarism json_parse steady_provider [2; 0] three_documents false)
    = Pending slots.
Proof.
  apply (@run_pending_until_all_settle json_parse steady_provider [2; 0]
           three_documents false 1).
  - intros i e [<-|[<-|[]]]; vm_compute; discriminate.
  - vm_compute. lia.
  - simpl. lia.
Defined.

(* ================================================================== *)
(** ** extractJsonFromText: the candidate and the repair, in general *)
(* ================================================================== *)







(** The three ways the repair treats the character at hand. *)
Lemma sanitize_cases (x : N) (rest : jsstring) :
  (exists ws c t,
      x = COMMA /\ rest = ws ++ [c] ++ t
      /\ Forall (fun y => is_space y = true) ws /\ is_closer c = true
      /\ sanitize (x :: rest) = c :: sanitize t)
  \/ ((x <> COMMA \/ forall c t, drop_spaces rest = c :: t -> is_closer c = false)
      /\ sanitize (x :: rest) = x :: sanitize rest).
Proof.
  destruct (N.eq_dec x COMMA) as [->|Hx].
  - destruct (drop_spaces rest) as [|c t] eqn:Ed.
    + right. split; [right; intros; discriminate|].
      apply sanitize_inner_comma. rewrite Ed. intros; discriminate.
    + destruct (is_closer c) eqn:Ec.
      * left. destruct (drop_spaces_split rest) as [ws [Hs Hws]]. rewrite Ed in Hs.
        exists ws, c, t. repeat split; auto.
        rewrite Hs. apply (@sanitize_trailing_comma ws c t Hws Ec).
      * right. split.
        -- right. intros c' t' H. now injection H as <- _.
        -- apply sanitize_inner_comma. rewrite Ed. intros c' t' H. now injection H as <- _.
  - right. split; [left; exact Hx | now apply sanitize_other].
Qed.

Lemma sanitize_length_bound (n : nat) (s : jsstring) :
  length s <= n -> length (sanitize s) <= length s.
Proof.
  revert s. induction n as [|n IH]; intros s Hn.
  - destruct s; [simpl; lia | simpl in Hn; lia].
  - destruct s as [|x rest]; [simpl; lia|].
    destruct (sanitize_cases x rest) as [[ws [c [t [_ [Hr [_ [_ Hs]]]]]]]|[_ Hs]]; rewrite Hs.
    + subst rest. simpl in *. rewrite length_app in *. simpl in *.
      specialize (IH t ltac:(lia)). lia.
    + simpl in *. specialize (IH rest ltac:(lia)). lia.
Qed.

Lemma sanitize_shortens (s : jsstring) :
  has_trailing_comma s -> length (sanitize s) < length s.
Proof.
  intros [a [ws [c [b [-> [Hws Hc]]]]]].
  induction a as [|x a IH].
  - simpl app. change (COMMA :: ws ++ c :: b) with ([COMMA] ++ ws ++ [c] ++ b).
    rewrite (@sanitize_trailing_comma ws c b Hws Hc).
    pose proof (@sanitize_length_bound (length b) b (le_n _)).
    simpl. rewrite !length_app. simpl. lia.
  - change ((x :: a) ++ [COMMA] ++ ws ++ [c] ++ b)
      with (x :: (a ++ [COMMA] ++ ws ++ [c] ++ b)).
    destruct (sanitize_cases x (a ++ [COMMA] ++ ws ++ [c] ++ b))
      as [[ws' [c' [t [_ [Hr [_ [_ Hs]]]]]]]|[_ Hs]]; rewrite Hs.
    + pose proof (@sanitize_length_bound (length t) t (le_n _)).
      cbn [length]. rewrite Hr, !length_app. cbn [length]. lia.
    + cbn [length]. lia.
Qed.

(** X7.  The trailing-comma repair never lengthens a text, and it leaves a
    text unchanged exactly when the text holds no comma that is followed,
    behind optional white space, by a closing brace or bracket. *)
Theorem sanitize_only_removes (s : jsstring) :
  length (sanitize s) <= length s
  /\ (sanitize s = s <-> ~ has_trailing_comma s).
Proof.
  split; [exact (@sanitize_length_bound (length s) s (le_n _))|].
  split.
  - intros Heq Hhas. apply sanitize_shortens in Hhas. rewrite Heq in Hhas. lia.
  - induction s as [|x rest IH]; intros Hno; [reflexivity|].
    assert (Hrest : ~ has_trailing_comma rest).
    { intros [a [ws [c [b [-> H]]]]]. apply Hno. now exists (x :: a), ws, c, b. }
    destruct (sanitize_cases x rest) as [[ws [c [t [-> [Hr [Hws [Hc _]]]]]]]|[_ Hs]].
    + exfalso. apply Hno. exists [], ws, c, t. rewrite Hr. auto.
    + rewrite Hs, (IH Hrest). reflexivity.
Qed.

(* ================================================================== *)
(** ** analyzePair: what it accepts *)
(* ================================================================== *)




(* ================================================================== *)
(** ** The report: average, colours, sentences, CSV *)
(* ================================================================== *)

Section AverageBounds.
Variable Result : Type.
Variable similarity : Result -> Q.


End AverageBounds.



(** X10.  The results list and the charts put every similarity into the
    same colour band: the text colour of the chart is the text colour of
    the list entry. *)
Theorem colour_bands_agree (similarity : Q) :
  exists background,
    Report.getSimilarityColor similarity
    = Charts.text (Charts.getSimilarityColor similarity) ++ js " " ++ background.
Proof.
  unfold Report.getSimilarityColor, Charts.getSimilarityColor.
  destruct (negb (Qle_bool similarity 75));
    [|destruct (negb (Qle_bool similarity 40))]; eexists; reflexivity.
Qed.

(** X11.  A matched sentence is shown in full when it is expanded or has
    at most 150 code units; collapsed, at most 153 code units are shown,
    and the first 150 are always those of the sentence. *)
Theorem displayText_bounds (sentence : jsstring) (isExpanded : bool) :
  length (Report.displayText sentence false) <= 153
  /\ Report.displayText sentence true = sentence
  /\ (length sentence <= 150 -> Report.displayText sentence isExpanded = sentence)
  /\ firstn 150 (Report.displayText sentence isExpanded) = firstn 150 sentence.
Proof.
  unfold Report.displayText, Report.isLong.
  destruct (150 <? length sentence) eqn:E; cbn [andb negb].
  - apply Nat.ltb_lt in E. split; [|split; [|split]].
    + rewrite length_app, length_firstn. change (length (js "...")) with 3. lia.
    + reflexivity.
    + lia.
    + destruct isExpanded; cbn [negb]; [reflexivity|].
      rewrite firstn_app, length_firstn, firstn_firstn.
      replace (150 - Nat.min 150 (length sentence)) with 0 by lia.
      rewrite Nat.min_id, firstn_O. now rewrite app_nil_r.
  - apply Nat.ltb_ge in E. split; [lia|]. split; [reflexivity|]. split; reflexivity.
Qed.

Lemma escapeQuotes_app (a b : jsstring) :
  Report.escapeQuotes (a ++ b) = Report.escapeQuotes a ++ Report.escapeQuotes b.
Proof. unfold Report.escapeQuotes. apply flat_map_app. Qed.

Lemma escapeQuotes_join (sentences : list jsstring) :
  Report.join Report.NEWLINE (map Report.escapeQuotes sentences)
  = Report.escapeQuotes (Report.join Report.NEWLINE sentences).
Proof.
  induction sentences as [|s l IH]; [reflexivity|].
  destruct l as [|s' l]; [reflexivity|].
  change (Report.join Report.NEWLINE (map Report.escapeQuotes (s :: s' :: l)))
    with (Report.escapeQuotes s ++ Report.NEWLINE
            ++ Report.join Report.NEWLINE (map Report.escapeQuotes (s' :: l))).
  change (Report.join Report.NEWLINE (s :: s' :: l))
    with (s ++ Report.NEWLINE ++ Report.join Report.NEWLINE (s' :: l)).
  rewrite IH, !escapeQuotes_app. reflexivity.
Qed.

Lemma read_quoted_escaped (body acc rest : jsstring) :
  (forall t, rest <> Report.QUOTE :: t) ->
  read_quoted (Report.escapeQuotes body ++ [Report.QUOTE] ++ rest) acc
  = Some (rev acc ++ body, rest).
Proof.
  intros Hrest. revert acc. induction body as [|c body IH]; intros acc.
  - change (Report.escapeQuotes []) with (@nil N). cbn [app read_quoted].
    rewrite N.eqb_refl, app_nil_r.
    destruct rest as [|c' t]; [reflexivity|].
    destruct (c' =? Report.QUOTE)%N eqn:E; [|reflexivity].
    apply N.eqb_eq in E. subst c'. now destruct (Hrest t).
  - change (Report.escapeQuotes (c :: body))
      with ((if (c =? Report.QUOTE)%N then [Report.QUOTE; Report.QUOTE] else [c])
              ++ Report.escapeQuotes body).
    destruct (c =? Report.QUOTE)%N eqn:E.
    + apply N.eqb_eq in E. subst c. cbn [app read_quoted]. rewrite !N.eqb_refl.
      rewrite IH. cbn [rev]. now rewrite <- app_assoc.
    + cbn [app read_quoted]. rewrite E, IH. cbn [rev]. now rewrite <- app_assoc.
Qed.

(** X12.  In a row of the online report the cell of the matched sentences
    is a well-formed quoted CSV field: a reader of quoted fields gets back
    the sentences joined by line feeds, whatever quotes they hold, and
    stops in front of the comma that separates the sources cell. *)
Theorem sentences_cell_reads_back
        (ToString : JsValue -> jsstring) (r : OnlineComparisonResult.t) :
  let sentences := map sentence (OnlineComparisonResult.matched_sentences r) in
  let tail := js "," ++ Report.sourcesCell (OnlineComparisonResult.sources r) in
  exists head,
    Report.onlineRow ToString (Online r)
    = Some (head ++ Report.sentencesCell sentences ++ tail)
    /\ read_quoted_field (Report.sentencesCell sentences ++ tail)
       = Some (Report.join Report.NEWLINE sentences, tail).
Proof.
  intros sentences tail.
  exists (OnlineComparisonResult.file1 r ++ js ","
            ++ Report.join_item ToString (JNum (OnlineComparisonResult.similarity r))
            ++ js ",").
  split.
  - unfold Report.onlineRow. cbn [Report.join]. fold sentences.
    f_equal. unfold tail. now rewrite <- !app_assoc.
  - unfold Report.sentencesCell, Report.quoted, read_quoted_field.
    cbn [app]. rewrite N.eqb_refl, escapeQuotes_join.
    rewrite <- app_assoc.
    rewrite (@read_quoted_escaped (Report.join Report.NEWLINE sentences) [] tail).
    + reflexivity.
    + intros t. unfold tail. discriminate.
Qed.

Example sentences_cell_sample :
  read_quoted_field
    (Report.sentencesCell (map sentence two_sentences) ++ js ",")
  = Some (jq "He said 'hi', twice." ++ [10%N] ++ js "Second one.", js ",").
Proof. vm_compute. reflexivity. Qed.

Section ReportOfRun.
Variable ToString : JsValue -> jsstring.




End ReportOfRun.

Section RunResults.
Variable JSON_parse : jsstring -> option JsValue.
Variable provider : nat -> Request -> Reply.
Variable schedule : list nat.
Variable documents : list DocumentContent.

End RunResults.





(* ================================================================== *)
(** ** The upload form and the application state *)
(* ================================================================== *)

(** X15.  The submit button is disabled exactly when [handleSubmit] would
    call neither callback.  A file submission carries the non-empty file
    list and the online flag of the form; a text submission carries the
    pasted text, and that text always passes the guard at the head of
    [handleTextAnalysis], whatever the state of the application. *)
Theorem submit_iff_enabled (st : FileUpload.State) :
  (FileUpload.handleSubmit st = FileUpload.NoSubmission
   <-> FileUpload.isSubmitDisabled st = true)
  /\ (forall files isOnlineCheck,
        FileUpload.handleSubmit st = FileUpload.onAnalyze files isOnlineCheck ->
        files = FileUpload.files st /\ files <> []
        /\ isOnlineCheck = FileUpload.isOnlineCheck st)
  /\ (forall text app,
        FileUpload.handleSubmit st = FileUpload.onAnalyzeText text ->
        text = FileUpload.pastedText st
        /\ App.handleTextAnalysis_begin app text = (App.begin_analysis app, true)).
Proof.
  unfold FileUpload.handleSubmit, FileUpload.isSubmitDisabled, App.handleTextAnalysis_begin.
  destruct (FileUpload.mode st).
  - destruct (FileUpload.files st) as [|f l] eqn:Hf; cbn [length Nat.ltb Nat.leb Nat.eqb].
    + repeat split; intros; try discriminate; reflexivity.
    + split; [split; discriminate|]. split; [|discriminate].
      intros files b H. injection H as <- <-. repeat split. discriminate.
  - destruct (truthy_string (trim (FileUpload.pastedText st))) eqn:Ht; cbn [negb].
    + split; [split; discriminate|]. split; [discriminate|].
      intros text app H. injection H as <-. now rewrite Ht.
    + repeat split; intros; try discriminate; reflexivity.
Qed.

(** X16.  In every state the application can reach, the loader is shown
    only with no error, no results and the upload view behind it; the
    results view never comes with an error message; and the upload view
    never holds results. *)
Theorem reachable_states (st : App.State) :
  App.reachable st ->
  (App.isLoading st = true ->
   App.error st = None /\ App.results st = [] /\ App.view st = App.UPLOAD)
  /\ (App.view st = App.RESULTS -> App.error st = None)
  /\ (App.view st = App.UPLOAD -> App.results st = []).
Proof.
  induction 1 as [|st st' _ [IHl [IHr IHu]] Hstep].
  - cbn. repeat split; congruence.
  - destruct Hstep as [st Hs|st text Hs|st settled Hs|st Hs]; unfold App.screen in Hs.
    + destruct (App.isLoading st) eqn:Hl; [discriminate|].
      destruct (App.view st) eqn:Hv; [|discriminate].
      cbn. rewrite Hv. repeat split; congruence.
    + destruct (App.isLoading st) eqn:Hl; [discriminate|].
      destruct (App.view st) eqn:Hv; [|discriminate].
      unfold App.handleTextAnalysis_begin.
      destruct (negb (truthy_string (trim text))); cbn; rewrite ?Hv, ?Hl;
        repeat split; try congruence; auto.
    + destruct (App.isLoading st) eqn:Hl; [|destruct (App.view st); discriminate].
      destruct (IHl eq_refl) as [He [Hr Hv]].
      destruct settled as [values|message]; cbn; rewrite ?He, ?Hr;
        repeat split; congruence.
    + cbn. repeat split; congruence.
Qed.

Lemma reachable_states_witness :
  App.error (App.end_analysis (App.begin_analysis App.initial) (Resolved [])) = None.
Proof.
  apply (@reachable_states (App.end_analysis (App.begin_analysis App.initial) (Resolved []))).
  - eapply App.reachable_step; [eapply App.reachable_step; [apply App.reachable_initial|]|].
    + apply App.step_files. reflexivity.
    + apply App.step_settled. reflexivity.
  - reflexivity.
Defined.

Section HandleAnalysisFacts.
Variable JSON_parse : jsstring -> option JsValue.
Variable provider : nat -> Request -> Reply.
Variable schedule : list nat.

(** X17.  When [handleAnalysis] has run to its end the loader is off, and
    the state is one of two: the results view with the values of the run
    and no error, or the upload view with no results and the message of
    the first failure, which came from reading the files or from the run. *)
Theorem handleAnalysis_ends (st st' : App.State) (read : Outcome (list DocumentContent))
        (isOnlineCheck : bool) :
  App.handleAnalysis JSON_parse provider schedule st read isOnlineCheck = Some st' ->
  App.isLoading st' = false
  /\ ((App.view st' = App.RESULTS /\ App.error st' = None
       /\ exists documents,
            read = Resolved documents
            /\ result (checkPlagiarism JSON_parse provider schedule documents isOnlineCheck)
               = Fulfilled (App.results st'))
      \/ (App.view st' = App.UPLOAD /\ App.results st' = []
          /\ exists message,
               App.error st' = Some message
               /\ (read = Thrown message
                   \/ exists documents,
                        read = Resolved documents
                        /\ result (checkPlagiarism JSON_parse provider schedule
                                                   documents isOnlineCheck)
                           = Rejected message))).
Proof.
  unfold App.handleAnalysis. destruct read as [documents|message].
  - destruct (result (checkPlagiarism JSON_parse provider schedule documents isOnlineCheck))
      as [slots|values|message] eqn:Hrun; cbn [App.awaited]; [discriminate| |];
      intros H; injection H as <-; cbn; (split; [reflexivity|]).
    + left. repeat split. exists documents. now rewrite Hrun.
    + right. repeat split. exists message. split; [reflexivity|]. right.
      exists documents. now rewrite Hrun.
  - intros H. injection H as <-. cbn. split; [reflexivity|]. right. repeat split.
    exists message. split; [reflexivity|]. now left.
Qed.

(** X18.  A pairwise analysis of fewer than two files is no error: the
    application shows the results view with an empty report, whose summary
    is an average of zero, and no request is sent. *)
Theorem short_pairwise_run_shows_empty_report (st : App.State)
        (documents : list DocumentContent) :
  length documents < 2 ->
  App.handleAnalysis JSON_parse provider schedule st (Resolved documents) false
  = Some {| App.view := App.RESULTS; App.results := [];
            App.isLoading := false; App.error := None |}
  /\ requests (checkPlagiarism JSON_parse provider schedule documents false) = [].
Proof.
  intros Hlen. unfold App.handleAnalysis, checkPlagiarism.
  apply Nat.ltb_lt in Hlen. rewrite Hlen. split; reflexivity.
Qed.

(** X19.  [handleTextAnalysis] on blank text only sets the error message.
    On other text it sends one request with that text and ends with the
    loader off: in the results view with a single online result named
    [Pasted Text] and no error, or in the upload view with no results and
    the error message of the online analysis. *)
Theorem handleTextAnalysis_ends (st : App.State) (text : jsstring) :
  (trim text = [] ->
   App.handleTextAnalysis JSON_parse provider st text
   = {| App.view := App.view st; App.results := App.results st;
        App.isLoading := App.isLoading st;
        App.error := Some (js "Please paste some text to analyze.") |})
  /\ (trim text <> [] ->
      call_log (checkPastedTextPlagiarism JSON_parse (provider 0) text) = [OnlineRequest text]
      /\ ((exists r,
             App.handleTextAnalysis JSON_parse provider st text
             = {| App.view := App.RESULTS; App.results := [Online r];
                  App.isLoading := false; App.error := None |}
             /\ OnlineComparisonResult.file1 r = js "Pasted Text")
          \/ App.handleTextAnalysis JSON_parse provider st text
             = {| App.view := App.UPLOAD; App.results := [];
                  App.isLoading := false;
                  App.error := Some (onlineErrorMessage (js "Pasted Text")) |})).
Proof.
  unfold App.handleTextAnalysis, App.handleTextAnalysis_begin. split.
  - intros ->. reflexivity.
  - intros Hne. destruct (trim text) as [|c tl] eqn:Ht; [congruence|].
    cbn [truthy_string negb]. split; [reflexivity|].
    unfold checkPastedTextPlagiarism, analyzeContentOnline, outcome. cbn [snd].
    destruct (provider 0 (OnlineRequest text)) as [response|e]; [|now right].
    destruct (onlineResultOf JSON_parse (js "Pasted Text") response) as [r|] eqn:Hr;
      [|now right].
    left. exists r. split; [reflexivity|].
    unfold onlineResultOf in Hr.
    repeat match type of Hr with
           | context [match ?x with _ => _ end] => destruct x; try discriminate
           end.
    now injection Hr as <-.
Qed.
End HandleAnalysisFacts.

Lemma short_pairwise_run_shows_empty_report_witness :
  App.handleAnalysis json_parse steady_provider [] App.initial
                     (Resolved [document "a.txt"]) false
  = Some {| App.view := App.RESULTS; App.results := [];
            App.isLoading := false; App.error := None |}.
Proof.
  apply (@short_pairwise_run_shows_empty_report json_parse steady_provider []
           App.initial [document "a.txt"]).
  simpl. lia.
Defined.

Lemma handleAnalysis_ends_witness :
  App.isLoading
    {| App.view := App.RESULTS; App.results := [];
       App.isLoading := false; App.error := None |} = false.
Proof.
  apply (@handleAnalysis_ends json_parse steady_provider [] App.initial _
           (Resolved [document "a.txt"]) false).
  reflexivity.
Defined.

(* ================================================================== *)
(** ** Reading the files *)
(* ================================================================== *)

Lemma split_comma_nonempty (s : jsstring) : App.split_comma s <> [].
Proof.
  induction s as [|c tl IH]; simpl; [discriminate|].
  destruct (c =? COMMA)%N; [discriminate|].
  destruct (App.split_comma tl); discriminate.
Qed.

Lemma split_comma_plain (s : jsstring) :
  Forall (fun c => c <> COMMA) s -> App.split_comma s = [s].
Proof.
  induction 1 as [|c tl Hc _ IH]; [reflexivity|].
  cbn [App.split_comma]. apply N.eqb_neq in Hc. now rewrite Hc, IH.
Qed.

Lemma split_comma_app (head rest : jsstring) :
  Forall (fun c => c <> COMMA) head ->
  App.split_comma (head ++ COMMA :: rest) = head :: App.split_comma rest.
Proof.
  induction 1 as [|c tl Hc _ IH].
  - cbn [app App.split_comma]. now rewrite N.eqb_refl.
  - cbn [app App.split_comma]. apply N.eqb_neq in Hc. now rewrite Hc, IH.
Qed.

Lemma split_comma_second (head payload more : jsstring) :
  Forall (fun c => c <> COMMA) head ->
  Forall (fun c => c <> COMMA) payload ->
  more = [] \/ (exists m, more = COMMA :: m) ->
  nth_error (App.split_comma (head ++ COMMA :: payload ++ more)) 1 = Some payload.
Proof.
  intros Hh Hp Hm. rewrite (@split_comma_app head _ Hh). cbn [nth_error].
  destruct Hm as [->|[m ->]].
  - now rewrite app_nil_r, (@split_comma_plain payload Hp).
  - now rewrite (@split_comma_app payload m Hp).
Qed.

(** X20.  A file that does not take the [.docx] path is resolved with the
    part of its data URL between the first and the second comma as content
    and the type of the file as MIME type; what follows a second comma is
    dropped.  When that part is empty the promise is rejected, as it is for
    a data URL without a comma. *)
Theorem readFile_data_url (mammoth : bool) (m1 m2 : jsstring) (file : File.t)
        (head payload more : jsstring) :
  App.takesDocxPath mammoth file = false ->
  Forall (fun c => c <> COMMA) head ->
  Forall (fun c => c <> COMMA) payload ->
  more = [] \/ (exists m, more = COMMA :: m) ->
  App.readFile mammoth m1 m2 file (App.DataUrlLoaded (Some (head ++ COMMA :: payload ++ more)))
  = Some (match payload with
          | [] => Thrown (js "Could not process file content for: " ++ File.name file)
          | _ :: _ => Resolved {| name := File.name file;
                                  content := payload;
                                  mimeType := File.type file |}
          end)
  /\ App.readFile mammoth m1 m2 file (App.DataUrlLoaded (Some head))
     = Some (Thrown (match head with
                     | [] => js "Could not read file: " ++ File.name file
                     | _ :: _ => js "Could not process file content for: " ++ File.name file
                     end)).
Proof.
  intros Hpath Hh Hp Hm. unfold App.readFile. rewrite Hpath. split.
  - rewrite (@split_comma_second head payload more Hh Hp Hm).
    assert (Ht : truthy_string (head ++ COMMA :: payload ++ more) = true)
      by (destruct head; reflexivity).
    rewrite Ht. destruct payload; reflexivity.
  - destruct head as [|c tl]; [reflexivity|].
    cbn [truthy_string]. now rewrite (@split_comma_plain _ Hh).
Qed.

Lemma readFile_data_url_witness :
  App.readFile false [] [] {| File.name := js "a.txt"; File.type := js "text/plain" |}
               (App.DataUrlLoaded (Some (js "data:text/plain;base64,aGk=,x")))
  = Some (Resolved {| name := js "a.txt"; content := js "aGk=";
                      mimeType := js "text/plain" |}).
Proof.
  apply (@readFile_data_url false [] [] {| File.name := js "a.txt"; File.type := js "text/plain" |}
           (js "data:text/plain;base64") (js "aGk=") (js ",x")).
  - reflexivity.
  - repeat constructor; discriminate.
  - repeat constructor; discriminate.
  - right. eexists. reflexivity.
Defined.

(* ================================================================== *)
(** ** toBase64 *)
(* ================================================================== *)

Section ToBase64.
Local Open Scope N_scope.

Ltac euclid := Z.to_euclidean_division_equations; lia.

Lemma hex_val_hex_digit (d : N) : d < 16 -> hex_val (App.hex_digit d) = Some d.
Proof.
  intros Hd. unfold App.hex_digit, hex_val, is_digit.
  destruct (N.ltb_spec d 10) as [Hlt|Hge].
  - replace (48 <=? 48 + d) with true by (symmetry; apply N.leb_le; lia).
    replace (48 + d <=? 57) with true by (symmetry; apply N.leb_le; lia).
    cbn [andb]. f_equal. lia.
  - replace (55 + d <=? 57) with false by (symmetry; apply N.leb_gt; lia).
    rewrite andb_false_r.
    replace (97 <=? 55 + d) with false by (symmetry; apply N.leb_gt; lia).
    cbn [andb].
    replace (65 <=? 55 + d) with true by (symmetry; apply N.leb_le; lia).
    replace (55 + d <=? 70) with true by (symmetry; apply N.leb_le; lia).
    cbn [andb]. f_equal. lia.
Qed.

Lemma hex_digit_not_u (d : N) : d < 16 -> (App.hex_digit d =? 117) = false.
Proof.
  intros Hd. apply N.eqb_neq. unfold App.hex_digit. destruct (N.ltb_spec d 10); lia.
Qed.

Lemma hex2_percent (b : N) :
  b < 256 -> App.hex2 (App.hex_digit (b / 16)) (App.hex_digit (b mod 16)) = Some b.
Proof.
  intros Hb. unfold App.hex2.
  assert (H1 : b / 16 < 16) by (zify; euclid).
  assert (H2 : b mod 16 < 16) by (zify; euclid).
  rewrite (@hex_val_hex_digit _ H1), (@hex_val_hex_digit _ H2). f_equal. zify; euclid.
Qed.

Lemma unescape_eq (c : N) (tl : jsstring) :
  App.unescape (c :: tl)
  = if c =? 37 then
      match tl with
      | u :: a :: ((b :: c1 :: d :: rest) as rest2) =>
          match (if u =? 117 then App.hex4 a b c1 d else None) with
          | Some v => v :: App.unescape rest
          | None =>
              match App.hex2 u a with
              | Some v => v :: App.unescape rest2
              | None => c :: App.unescape tl
              end
          end
      | u :: a :: rest2 =>
          match App.hex2 u a with
          | Some v => v :: App.unescape rest2
          | None => c :: App.unescape tl
          end
      | _ => c :: App.unescape tl
      end
    else c :: App.unescape tl.
Proof. reflexivity. Qed.

Lemma unescape_percent (b : N) (rest : jsstring) :
  b < 256 -> App.unescape (App.percent_octet b ++ rest) = b :: App.unescape rest.
Proof.
  intros Hb. unfold App.percent_octet. cbn [app].
  remember (App.unescape rest) as R eqn:HR.
  rewrite unescape_eq. rewrite N.eqb_refl.
  assert (H1 : b / 16 < 16) by (zify; euclid).
  destruct rest as [|r1 [|r2 [|r3 rest']]];
    rewrite ?(@hex_digit_not_u _ H1), (@hex2_percent _ Hb); now subst R.
Qed.

Lemma unescape_octets (octets : list N) (rest : jsstring) :
  Forall (fun b => b < 256) octets ->
  App.unescape (flat_map App.percent_octet octets ++ rest) = octets ++ App.unescape rest.
Proof.
  induction 1 as [|b l Hb _ IH]; [reflexivity|].
  cbn [flat_map]. rewrite <- !app_assoc, (@unescape_percent _ _ Hb), IH. reflexivity.
Qed.

Lemma unreserved_plain (c : N) :
  App.is_uri_unreserved c = true ->
  (c =? 37) = false /\ c < 128
  /\ App.is_low_surrogate c = false /\ App.is_high_surrogate c = false.
Proof.
  unfold App.is_uri_unreserved, App.is_low_surrogate, App.is_high_surrogate.
  intros H.
  assert (Hc : c < 127 /\ c <> 37).
  { repeat (apply orb_prop in H; destruct H as [H|H]);
      try (apply andb_prop in H; destruct H as [H1 H2];
           apply N.leb_le in H1; apply N.leb_le in H2; lia);
      apply N.eqb_eq in H; lia. }
  destruct Hc as [Hlt Hne]. repeat split.
  - now apply N.eqb_neq.
  - lia.
  - replace (56320 <=? c) with false by (symmetry; apply N.leb_gt; lia). reflexivity.
  - replace (55296 <=? c) with false by (symmetry; apply N.leb_gt; lia). reflexivity.
Qed.

Lemma utf8_octets_bound (cp : N) :
  cp < 1114112 -> Forall (fun b => b < 256) (App.utf8_octets cp).
Proof.
  intros Hcp. unfold App.utf8_octets.
  destruct (N.ltb_spec cp 128); [|destruct (N.ltb_spec cp 2048);
                                   [|destruct (N.ltb_spec cp 65536)]];
    repeat constructor; zify; euclid.
Qed.

Lemma pair_code_point_bound (hi lo : N) :
  App.is_high_surrogate hi = true -> App.is_low_surrogate lo = true ->
  App.pair_code_point hi lo < 1114112.
Proof.
  unfold App.is_high_surrogate, App.is_low_surrogate, App.pair_code_point.
  intros Hh Hl. apply andb_prop in Hh, Hl. destruct Hh as [H1 H2], Hl as [H3 H4].
  apply N.leb_le in H1, H2, H3, H4. lia.
Qed.

(** What [unescape] makes of the output of [encodeURIComponent]: the
    octets of the UTF-8 encoding, one code unit each. *)
Lemma unescape_encodeURIComponent (n : nat) (s : jsstring) :
  (length s <= n)%nat -> code_units s ->
  match utf8_encode s with
  | Some octets =>
      exists escaped,
        App.encodeURIComponent s = Some escaped
        /\ App.unescape escaped = octets
        /\ Forall (fun b => b < 256) octets
  | None => App.encodeURIComponent s = None
  end.
Proof.
  revert s. induction n as [|n IH]; intros s Hlen Hs.
  - destruct s; [|simpl in Hlen; lia]. exists []. repeat split. constructor.
  - destruct s as [|c tl]; [exists []; repeat split; constructor|].
    inversion Hs as [|? ? Hc Htl]; subst.
    cbn [utf8_encode App.encodeURIComponent].
    destruct (App.is_uri_unreserved c) eqn:Hu.
    + destruct (@unreserved_plain c Hu) as [H37 [H128 [Hlo Hhi]]]. rewrite Hlo, Hhi.
      assert (H := IH tl ltac:(simpl in Hlen; lia) Htl).
      replace (App.utf8_octets c) with [c]
        by (unfold App.utf8_octets; apply N.ltb_lt in H128; now rewrite H128).
      destruct (utf8_encode tl) as [octets|].
      * destruct H as [escaped [He [Hun Hb]]]. rewrite He. cbn [option_map app].
        exists (c :: escaped). split; [reflexivity|]. split.
        -- rewrite unescape_eq, H37. now rewrite Hun.
        -- constructor; [lia | exact Hb].
      * now rewrite H.
    + destruct (App.is_low_surrogate c) eqn:Hlo; [reflexivity|].
      destruct (App.is_high_surrogate c) eqn:Hhi.
      * destruct tl as [|c2 tl2]; [reflexivity|].
        destruct (App.is_low_surrogate c2) eqn:Hlo2; [|reflexivity].
        inversion Htl as [|? ? _ Htl2]; subst.
        assert (H := IH tl2 ltac:(simpl in Hlen; lia) Htl2).
        pose proof (@utf8_octets_bound _ (@pair_code_point_bound c c2 Hhi Hlo2)) as Hb8.
        destruct (utf8_encode tl2) as [octets|].
        -- destruct H as [escaped [He [Hun Hb]]]. rewrite He. cbn [option_map].
           eexists. split; [reflexivity|]. split.
           ++ rewrite (@unescape_octets _ _ Hb8). now rewrite Hun.
           ++ apply Forall_app. now split.
        -- now rewrite H.
      * assert (H := IH tl ltac:(simpl in Hlen; lia) Htl).
        assert (Hb8 : Forall (fun b => b < 256) (App.utf8_octets c))
          by (apply utf8_octets_bound; lia).
        destruct (utf8_encode tl) as [octets|].
        -- destruct H as [escaped [He [Hun Hb]]]. rewrite He. cbn [option_map].
           eexists. split; [reflexivity|]. split.
           ++ rewrite (@unescape_octets _ _ Hb8). now rewrite Hun.
           ++ apply Forall_app. now split.
        -- now rewrite H.
Qed.

Lemma btoa_octets (octets : list N) :
  Forall (fun b => b < 256) octets -> App.btoa octets = Some (App.base64_encode octets).
Proof.
  intros H. unfold App.btoa.
  replace (forallb (fun c => c <=? 255) octets) with true; [reflexivity|].
  symmetry. apply forallb_forall. rewrite Forall_forall in H.
  intros b Hb. apply N.leb_le. specialize (H b Hb). lia.
Qed.
End ToBase64.

(** X21.  [toBase64] of a string of UTF-16 code units is the Base64 text of
    its UTF-8 encoding.  It throws a [URIError] exactly when the string
    holds a surrogate that is not part of a pair, and never the
    [InvalidCharacterError] of [btoa]. *)
Theorem toBase64_is_base64_of_utf8 (str : jsstring) :
  code_units str ->
  App.toBase64 str
  = match utf8_encode str with
    | Some octets => App.Encoded (App.base64_encode octets)
    | None => App.URIError
    end.
Proof.
  intros Hs. unfold App.toBase64.
  pose proof (@unescape_encodeURIComponent (length str) str (le_n _) Hs) as H.
  destruct (utf8_encode str) as [octets|].
  - destruct H as [escaped [He [Hun Hb]]]. rewrite He, Hun, (@btoa_octets _ Hb). reflexivity.
  - now rewrite H.
Qed.

Lemma toBase64_is_base64_of_utf8_witness :
  App.toBase64 [233; 8364; 55357; 56832]%N = App.Encoded (js "w6nigqzwn5iA")
  /\ App.toBase64 [97; 56832]%N = App.URIError.
Proof.
  split.
  - apply (@toBase64_is_base64_of_utf8 [233; 8364; 55357; 56832]%N).
    repeat constructor.
  - apply (@toBase64_is_base64_of_utf8 [97; 56832]%N).
    repeat constructor.
Defined.

(** X22.  For a file that takes the [.docx] path the document sent on is
    plain text whatever the type of the file: its content is the Base64
    text of the UTF-8 encoding of the extracted text.  A text with a
    surrogate that is not part of a pair is reported as a failure to parse
    the [.docx] file, with the message of the [URIError]. *)
Theorem readFile_docx (mammoth : bool) (m1 m2 : jsstring) (file : File.t)
        (value : jsstring) :
  App.takesDocxPath mammoth file = true ->
  code_units value ->
  App.readFile mammoth m1 m2 file (App.DocxExtracted value)
  = Some (match utf8_encode value with
          | Some octets =>
              Resolved {| name := File.name file;
                          content := App.base64_encode octets;
                          mimeType := js "text/plain" |}
          | None =>
              Thrown (js "Could not parse .docx file: " ++ File.name file ++ js ". " ++ m1)
          end).
Proof.
  intros Hpath Hs. unfold App.readFile, App.toBase64. rewrite Hpath.
  pose proof (@unescape_encodeURIComponent (length value) value (le_n _) Hs) as H.
  destruct (utf8_encode value) as [octets|].
  - destruct H as [escaped [He [Hun Hb]]]. rewrite He, Hun, (@btoa_octets _ Hb). reflexivity.
  - now rewrite H.
Qed.

Lemma readFile_docx_witness :
  App.readFile true [] []
               {| File.name := js "essay.docx";
                  File.type := js "application/vnd.openxmlformats-officedocument.wordprocessingml.document" |}
               (App.DocxExtracted (js "hi"))
  = Some (Resolved {| name := js "essay.docx"; content := js "aGk=";
                      mimeType := js "text/plain" |}).
Proof.
  apply (@readFile_docx true [] []
           {| File.name := js "essay.docx";
              File.type := js "application/vnd.openxmlformats-officedocument.wordprocessingml.document" |}
           (js "hi")).
  - reflexivity.
  - repeat constructor.
Defined.

Section HandleFileRead.
Variable mammoth : bool.
Variable m1 m2 : jsstring.

Lemma readFile_resolved (file : File.t) (ev : App.ReadEvent) (d : DocumentContent) :
  App.readFile mammoth m1 m2 file ev = Some (Resolved d) ->
  name d = File.name file
  /\ (if App.takesDocxPath mammoth file
      then mimeType d = js "text/plain"
      else mimeType d = File.type file /\ content d <> []).
Proof.
  unfold App.readFile. destruct ev as [|[dataUrl|]|value|message];
    destruct (App.takesDocxPath mammoth file); try discriminate.
  - destruct (truthy_string dataUrl); [|discriminate].
    destruct (nth_error (App.split_comma dataUrl) 1) as [[|c base64Data]|];
      cbn [truthy_string]; try discriminate.
    intros H. injection H as <-. cbn. repeat split. discriminate.
  - destruct (App.toBase64 value); try discriminate.
    intros H. injection H as <-. now split.
Qed.

Lemma readAll_Forall2 (files : list File.t) (events : list App.ReadEvent)
      (promises : list (Outcome DocumentContent)) :
  App.readAll mammoth m1 m2 files events = Some promises ->
  Forall2 (fun file o => exists ev, App.readFile mammoth m1 m2 file ev = Some o)
          files promises.
Proof.
  revert events promises. induction files as [|file files IH]; intros events promises.
  - intros H. injection H as <-. constructor.
  - destruct events as [|ev events]; [discriminate|]. cbn [App.readAll].
    destruct (App.readFile mammoth m1 m2 file ev) as [o|] eqn:Ho; [|discriminate].
    destruct (App.readAll mammoth m1 m2 files events) as [os|] eqn:Hos; [|discriminate].
    intros H. injection H as <-. constructor; [now exists ev | now apply (IH events)].
Qed.
End HandleFileRead.

(** X23.  When [handleFileRead] fulfils, the documents stand for the files
    one to one and in the order of the files, whatever the order in which
    the readers finished: each document has the name of its file; a file of
    the [.docx] path is sent as plain text, any other file with its own
    type and a content that is not empty. *)
Theorem documents_follow_files (mammoth : bool) (m1 m2 : jsstring)
        (files : list File.t) (events : list App.ReadEvent) (schedule : list nat)
        (documents : list DocumentContent) :
  App.handleFileRead mammoth m1 m2 files events schedule = Some (Fulfilled documents) ->
  Forall2 (fun file d =>
             name d = File.name file
             /\ (if App.takesDocxPath mammoth file
                 then mimeType d = js "text/plain"
                 else mimeType d = File.type file /\ content d <> []))
          files documents.
Proof.
  unfold App.handleFileRead.
  destruct (App.readAll mammoth m1 m2 files events) as [promises|] eqn:Hall; [|discriminate].
  cbn [option_map]. intros H. injection H as H. apply Promise_all_fulfilled in H.
  apply readAll_Forall2 in Hall. rewrite H in Hall. clear H.
  revert files Hall. induction documents as [|d ds IH]; intros files Hall.
  - inversion Hall. constructor.
  - inversion Hall as [|file o files' os [ev Hev] Htl]; subst.
    constructor; [exact (readFile_resolved _ _ _ _ _ Hev) | now apply IH].
Qed.

Lemma documents_follow_files_witness :
  Forall2 (fun file d =>
             name d = File.name file
             /\ (if App.takesDocxPath true file
                 then mimeType d = js "text/plain"
                 else mimeType d = File.type file /\ content d <> []))
          [ {| File.name := js "a.txt"; File.type := js "text/plain" |};
            {| File.name := js "b.docx"; File.type := js "application/msword" |} ]
          [ {| name := js "a.txt"; content := js "aGk="; mimeType := js "text/plain" |};
            {| name := js "b.docx"; content := js "aGk="; mimeType := js "text/plain" |} ].
Proof.
  apply (@documents_follow_files true [] []
           [ {| File.name := js "a.txt"; File.type := js "text/plain" |};
             {| File.name := js "b.docx"; File.type := js "application/msword" |} ]
           [ App.DataUrlLoaded (Some (js "data:text/plain;base64,aGk="));
             App.DocxExtracted (js "hi") ]
           [1; 0]).
  vm_compute. reflexivity.
Defined.

(** X24.  In upload mode, removing a file by name leaves exactly the files
    of other names, so every file of that name goes at once; the submit
    button is disabled afterwards exactly when all files had that name. *)
Theorem remove_file_by_name (st : FileUpload.State) (fileName : jsstring) :
  FileUpload.mode st = FileUpload.upload ->
  (forall file,
      In file (FileUpload.files (FileUpload.handleRemoveFile st fileName))
      <-> In file (FileUpload.files st) /\ File.name file <> fileName)
  /\ (FileUpload.isSubmitDisabled (FileUpload.handleRemoveFile st fileName) = true
      <-> Forall (fun file => File.name file = fileName) (FileUpload.files st)).
Proof.
  intros Hmode. unfold FileUpload.isSubmitDisabled, FileUpload.handleRemoveFile.
  cbn [FileUpload.mode FileUpload.files]. rewrite Hmode. split.
  - intros file. rewrite filter_In. split; intros [Hin Hn]; split; trivial.
    + intros E. rewrite <- E, jsstring_eqb_refl in Hn. discriminate.
    + destruct (jsstring_eqb (File.name file) fileName) eqn:E; [|reflexivity].
      apply jsstring_eqb_eq in E. contradiction.
  - rewrite Nat.eqb_eq. induction (FileUpload.files st) as [|f l IH]; cbn [filter].
    + split; [constructor | reflexivity].
    + destruct (jsstring_eqb (File.name f) fileName) eqn:E; cbn [negb length].
      * apply jsstring_eqb_eq in E. rewrite IH. split; [now constructor|].
        intros H. now inversion H.
      * split; [discriminate|]. intros H. apply Forall_inv in H.
        rewrite H, jsstring_eqb_refl in E. discriminate.
Qed.

Lemma remove_file_by_name_witness :
  FileUpload.isSubmitDisabled
    (FileUpload.handleRemoveFile
       {| FileUpload.mode := FileUpload.upload;
          FileUpload.files := [ {| File.name := js "a.txt"; File.type := js "text/plain" |};
                                {| File.name := js "a.txt"; File.type := js "text/html" |} ];
          FileUpload.pastedText := [];
          FileUpload.isOnlineCheck := false |}
       (js "a.txt")) = true.
Proof.
  apply (@remove_file_by_name
           {| FileUpload.mode := FileUpload.upload;
              FileUpload.files := [ {| File.name := js "a.txt"; File.type := js "text/plain" |};
                                    {| File.name := js "a.txt"; File.type := js "text/html" |} ];
              FileUpload.pastedText := [];
              FileUpload.isOnlineCheck := false |}
           (js "a.txt")).
  - reflexivity.
  - repeat constructor.
Defined.

Lemma index_after_mod (n : nat) : Loader.index_after n = n mod 6.
Proof.
  unfold Loader.index_after. induction n as [|n IH]; [reflexivity|].
  rewrite Nat.iter_succ, IH. unfold Loader.tick.
  change (length Loader.messages) with 6.
  rewrite Nat.Div0.add_mod_idemp_l. f_equal. lia.
Qed.

(** X25.  The loader always shows one of its six messages: after [n] runs
    of the interval callback it is message [n mod 6], so the messages come
    round in their order and the index never leaves the array. *)
Theorem loader_message_cycles (n : nat) :
  Loader.message_after n = nth_error Loader.messages (n mod 6)
  /\ Loader.message_after n <> None
  /\ Loader.message_after (n + 6) = Loader.message_after n.
Proof.
  assert (H : forall k, Loader.message_after k = nth_error Loader.messages (k mod 6)).
  { intros [|k]; [reflexivity|]. unfold Loader.message_after. now rewrite index_after_mod. }
  split; [apply H|]. split.
  - rewrite H. apply nth_error_Some. change (length Loader.messages) with 6.
    apply Nat.mod_upper_bound. discriminate.
  - rewrite !H. f_equal.
    replace (n + 6) with (n + 1 * 6) by lia. apply Nat.Div0.mod_add.
Qed.
